(** * The [memoize] wrapper of the post "Memoization: What, Why, and How"

    A shallow embedding of the JavaScript of
    [src/posts/published/memoization/index.mdx] (the functions [add],
    [memoize] and [factorial]) together with the fragment of the language
    they run on: property lookup on a plain object, [JSON.stringify] on
    primitive values, [Array.prototype.join], [===], [-] and [*].

    Functions with effects are state transformers; a run that may recurse
    without bound takes a fuel argument and yields [None] when the fuel is
    spent. *)

From Stdlib Require Import ZArith Ascii String DecimalString DecimalZ Factorial.
From stdpp Require Import gmap strings list.

Local Open Scope string_scope.
Local Open Scope list_scope.

(** ** Values *)

(** Numbers. [Int z] is the double whose value is the integer [z]; [Int 0]
    is [+0]. The embedding is exact for the safe integers
    ([-2^53 <= z <= 2^53]); doubles with a fractional part are not
    represented. *)
Inductive number : Type :=
  | NaN
  | PosInfinity
  | NegInfinity
  | NegZero
  | Int (z : Z).

(** The values that reach [memoize] in this development: the primitive
    values, function objects (compared by identity, here a name), and the
    one object a lookup on a plain object can yield by inheritance,
    [%Object.prototype%].  Strings are sequences of code units below 256.
    Other objects, arrays, symbols and bigints are not represented. *)
Inductive value : Type :=
  | VUndefined
  | VNull
  | VBool (b : bool)
  | VNum (n : number)
  | VStr (s : string)
  | VFun (name : string)
  | VObjectPrototype.

(** What a call does: it returns a value or throws one. *)
Inductive outcome : Type :=
  | Return (v : value)
  | Throw (e : value).

#[global] Instance number_eq_dec : EqDecision number.
Proof. solve_decision. Defined.

#[global] Instance value_eq_dec : EqDecision value.
Proof. solve_decision. Defined.

#[global] Instance outcome_eq_dec : EqDecision outcome.
Proof. solve_decision. Defined.

(** [v !== undefined] *)
Definition isDefined (v : value) : bool :=
  match v with
  | VUndefined => false
  | _ => true
  end.

(** ** [JSON.stringify] *)

Module JSON.

Definition dquote : ascii := "034"%char.
Definition backslash : ascii := "092"%char.

Definition hexDigit (n : N) : ascii :=
  match n with
  | 0 => "0" | 1 => "1" | 2 => "2" | 3 => "3" | 4 => "4" | 5 => "5"
  | 6 => "6" | 7 => "7" | 8 => "8" | 9 => "9" | 10 => "a" | 11 => "b"
  | 12 => "c" | 13 => "d" | 14 => "e" | _ => "f"
  end%N%char.

(** [UnicodeEscape]: a backslash, [u] and four lower-case hexadecimal
    digits; code units here are below 256, so the first two are zero. *)
Definition unicodeEscape (c : ascii) : string :=
  let n := N_of_ascii c in
  String backslash
    (String "u" (String "0" (String "0"
      (String (hexDigit (n / 16)) (String (hexDigit (n mod 16)) ""))))).

(** One code unit of [QuoteJSONString]: the two-character escapes of the
    table, [UnicodeEscape] for the other code units below space, the code
    unit itself otherwise. *)
Definition quoteChar (c : ascii) : string :=
  let n := N_of_ascii c in
  if (n =? 8)%N then String backslash "b"
  else if (n =? 9)%N then String backslash "t"
  else if (n =? 10)%N then String backslash "n"
  else if (n =? 12)%N then String backslash "f"
  else if (n =? 13)%N then String backslash "r"
  else if (n =? 34)%N then String backslash (String dquote "")
  else if (n =? 92)%N then String backslash (String backslash "")
  else if (n <? 32)%N then unicodeEscape c
  else String c "".

Fixpoint quoteChars (s : string) : string :=
  match s with
  | EmptyString => EmptyString
  | String c s' => quoteChar c +:+ quoteChars s'
  end.

Definition quote (s : string) : string :=
  String dquote (quoteChars s +:+ String dquote "").

(** [Number::toString] in radix 10, on the numbers represented.  An
    integer is written with all its digits, as the language does below
    [10^21]; from there on the language writes an exponent. *)
Definition numberToString (n : number) : string :=
  match n with
  | NaN => "NaN"
  | PosInfinity => "Infinity"
  | NegInfinity => "-Infinity"
  | NegZero => "0"
  | Int z => NilZero.string_of_int (Z.to_int z)
  end.

Definition isFinite (n : number) : bool :=
  match n with
  | NaN | PosInfinity | NegInfinity => false
  | NegZero | Int _ => true
  end.

(** [JSON.stringify(v)]; [None] is the result [undefined].  A number that
    is not finite serializes as [null], a function as [undefined], and
    [%Object.prototype%], which has no enumerable own property, as [{}].

    [args.map(JSON.stringify)] calls [JSON.stringify(v, index, args)]: a
    number is no replacer and an array is no indentation, so both extra
    arguments are without effect and are left out here. *)
Definition stringify (v : value) : option string :=
  match v with
  | VUndefined => None
  | VNull => Some "null"
  | VBool true => Some "true"
  | VBool false => Some "false"
  | VNum n => Some (if isFinite n then numberToString n else "null")
  | VStr s => Some (quote s)
  | VFun _ => None
  | VObjectPrototype => Some "{}"
  end.

End JSON.

(** ** [Array.prototype.join] *)

(** [elems.join(sep)] on an array whose elements are strings or
    [undefined]: an [undefined] element contributes the empty string. *)
Definition join (sep : string) (elems : list (option string)) : string :=
  String.concat sep (map (default "") elems).

(** ** Key derivation (line 48) *)

Definition delimiter : string := "---".

(** [args.map(JSON.stringify).join('---')] *)
Definition deriveKey (args : list value) : string :=
  join delimiter (map JSON.stringify args).

(** ** The cache object (line 40) *)

Module PlainObject.

(** The function-valued properties of [%Object.prototype%]. *)
Definition prototypeMethods : list string :=
  [ "constructor"; "hasOwnProperty"; "isPrototypeOf";
    "propertyIsEnumerable"; "toLocaleString"; "toString"; "valueOf";
    "__defineGetter__"; "__defineSetter__"; "__lookupGetter__";
    "__lookupSetter__" ].

(** [Object.prototype[k]]: the accessor [__proto__] yields the prototype
    of the receiver, which for the cache is [%Object.prototype%]. *)
Definition inherited (k : string) : value :=
  if decide (k = "__proto__") then VObjectPrototype
  else if decide (k ∈ prototypeMethods) then VFun ("Object.prototype." +:+ k)
  else VUndefined.

(** [obj[k]] for an object literal whose own properties are [own]: the
    own property when there is one, else the inherited one, else
    [undefined]. *)
Definition get (own : gmap string value) (k : string) : value :=
  match own !! k with
  | Some v => v
  | None => inherited k
  end.

(** [obj[k] = v] where [k] names no inherited property: the own data
    property is created or overwritten.  [memoize] assigns (line 58) only
    after [obj[k]] was found [undefined] (line 50), which no inherited
    property is. *)
Definition set (own : gmap string value) (k : string) (v : value)
  : gmap string value :=
  <[k := v]> own.

End PlainObject.

(** ** The wrapper (lines 36-62) *)

(** What one wrapped function can touch: the own properties of its [cache],
    the lines written by [console.log], and, as an observation added by the
    embedding, the argument lists with which the underlying function was
    invoked (line 57), oldest first. *)
Record state : Type := State {
  cache : gmap string value;
  console : list string;
  invoked : list (list value)
}.

Definition fresh : state := State ∅ [] [].

Definition consoleLog (line : string) (st : state) : state :=
  State (cache st) (console st ++ [line]) (invoked st).

Definition recordInvocation (args : list value) (st : state) : state :=
  State (cache st) (console st) (invoked st ++ [args]).

Definition cacheSet (key : string) (v : value) (st : state) : state :=
  State (PlainObject.set (cache st) key v) (console st) (invoked st).

(** A callable in a run: from the arguments and the state to an outcome
    and the state after, or [None] when the run is cut short. *)
Definition callable : Type := list value → state → option (outcome * state).

(** The function handed to [memoize], as a function of what the name of
    the wrapped function is bound to in its scope ([factorial] calls
    [factorial], line 97).  A function that does not mention the wrapped
    function ignores that argument. *)
Definition underlying : Type := callable → callable.

(** A pure function: its outcome depends on the arguments only and it has
    no effect. *)
Definition pure (f : list value → outcome) : underlying :=
  λ _ args st, Some (f args, st).

(** The arrow function returned by [memoize(fn)] (lines 44-61). *)
Fixpoint memoized (fn : underlying) (fuel : nat) (args : list value)
    (st : state) : option (outcome * state) :=
  match fuel with
  | O => None
  | S fuel' =>
      let key := deriveKey args in
      if isDefined (PlainObject.get (cache st) key) then
        let st1 := consoleLog "from cache" st in
        Some (Return (PlainObject.get (cache st1) key), st1)
      else
        match fn (memoized fn fuel') args (recordInvocation args st) with
        | None => None
        | Some (Throw e, st') => Some (Throw e, st')
        | Some (Return result, st') =>
            Some (Return result, cacheSet key result st')
        end
  end.

(** ** Wrapping (lines 36-44): one cache object per call of [memoize] *)

(** The objects allocated so far, the console and the observation of
    invocations. *)
Record world : Type := World {
  heap : list (gmap string value);
  output : list string;
  trace : list (list value)
}.

(** A wrapped function: the closure over [fn] and the location of the
    [cache] object created for it. *)
Record instance : Type := Instance {
  fnOf : underlying;
  cacheOf : nat
}.

(** The options object of the interface [wrap(fn, options)]: a key
    derivation and a cache backend, each of which may be left out. *)
Record options : Type := Options {
  keyFn : option (list value → string);
  cacheFactory : option (unit → gmap string value)
}.

(** [memoize(fn)] and [memoize(fn, options)]: the function declares the one
    parameter [fn], so a second argument of a call is bound to nothing.  A
    new empty object is allocated for [cache] and the arrow function closed
    over it is returned. *)
Definition memoize (fn : underlying) (opts : option options) (w : world)
    : instance * world :=
  (Instance fn (length (heap w)),
   World (heap w ++ [∅]) (output w) (trace w)).

(** Calling a wrapped function: its arrow function runs on the object at
    its cache location; the console is the one console. *)
Definition call (m : instance) (fuel : nat) (args : list value) (w : world)
    : option (outcome * world) :=
  match heap w !! cacheOf m with
  | None => None
  | Some own =>
      match memoized (fnOf m) fuel args (State own (output w) (trace w)) with
      | None => None
      | Some (o, st') =>
          Some (o, World (<[cacheOf m := cache st']> (heap w))
                         (console st') (invoked st'))
      end
  end.

(** Calls one after the other on one wrapped function, with the outcomes
    in order. *)
Fixpoint callEach (fn : underlying) (fuel : nat) (calls : list (list value))
    (st : state) : option (list outcome * state) :=
  match calls with
  | [] => Some ([], st)
  | args :: calls' =>
      match memoized fn fuel args st with
      | None => None
      | Some (o, st1) =>
          match callEach fn fuel calls' st1 with
          | None => None
          | Some (os, st2) => Some (o :: os, st2)
          end
      end
  end.

(** ** Operators *)

Definition negate (x : number) : number :=
  match x with
  | NaN => NaN
  | PosInfinity => NegInfinity
  | NegInfinity => PosInfinity
  | NegZero => Int 0
  | Int 0 => NegZero
  | Int z => Int (- z)
  end.

(** [Number::add].  The sum of two integers is the exact one, as in the
    language while it is a safe integer; beyond, the language rounds to
    the nearest double. *)
Definition addNumbers (x y : number) : number :=
  match x, y with
  | NaN, _ | _, NaN => NaN
  | PosInfinity, NegInfinity | NegInfinity, PosInfinity => NaN
  | PosInfinity, _ | _, PosInfinity => PosInfinity
  | NegInfinity, _ | _, NegInfinity => NegInfinity
  | NegZero, NegZero => NegZero
  | NegZero, Int z | Int z, NegZero => Int z
  | Int a, Int b => Int (a + b)
  end.

(** [Number::subtract] *)
Definition subtractNumbers (x y : number) : number :=
  addNumbers x (negate y).

Definition signBit (x : number) : bool :=
  match x with
  | NegInfinity | NegZero => true
  | Int z => (z <? 0)%Z
  | NaN | PosInfinity => false
  end.

Definition isZero (x : number) : bool :=
  match x with
  | NegZero | Int 0 => true
  | _ => false
  end.

Definition integerOf (x : number) : Z :=
  match x with
  | Int z => z
  | _ => 0
  end.

(** [Number::multiply].  The product of two integers is the exact one,
    as in the language while it is a safe integer; beyond, the language
    rounds to the nearest double or overflows to an infinity. *)
Definition multiplyNumbers (x y : number) : number :=
  match x, y with
  | NaN, _ | _, NaN => NaN
  | (PosInfinity | NegInfinity), _ | _, (PosInfinity | NegInfinity) =>
      if isZero x || isZero y then NaN
      else if xorb (signBit x) (signBit y) then NegInfinity
      else PosInfinity
  | _, _ =>
      let z := (integerOf x * integerOf y)%Z in
      if (z =? 0)%Z then
        if xorb (signBit x) (signBit y) then NegZero else Int 0
      else Int z
  end.

(** [Number::equal] *)
Definition equalNumbers (x y : number) : bool :=
  match x, y with
  | NaN, _ | _, NaN => false
  | _, _ => bool_decide (x = y) || (isZero x && isZero y)
  end.

(** [v === w] *)
Definition strictEquals (v w : value) : bool :=
  match v, w with
  | VNum x, VNum y => equalNumbers x y
  | _, _ => bool_decide (v = w)
  end.

(** The conversions need two functions of the language that are kept
    abstract: [StringToNumber], and the source text that
    [Function.prototype.toString] gives for a function object. *)
Section Post.

Variable StringToNumber : string → number.
Variable sourceText : string → string.

(** [ToString]; an object converts through its [toString] method. *)
Definition ToString (v : value) : string :=
  match v with
  | VUndefined => "undefined"
  | VNull => "null"
  | VBool true => "true"
  | VBool false => "false"
  | VNum n => JSON.numberToString n
  | VStr s => s
  | VFun f => sourceText f
  | VObjectPrototype => "[object Object]"
  end.

(** [ToNumber]; an object converts through [ToPrimitive], which for the
    two kinds of object here gives the string of [ToString]. *)
Definition ToNumber (v : value) : number :=
  match v with
  | VUndefined => NaN
  | VNull => Int 0
  | VBool true => Int 1
  | VBool false => Int 0
  | VNum n => n
  | VStr _ | VFun _ | VObjectPrototype => StringToNumber (ToString v)
  end.

(** Whether [ToPrimitive(v)] is a string. *)
Definition primitiveIsString (v : value) : bool :=
  match v with
  | VStr _ | VFun _ | VObjectPrototype => true
  | _ => false
  end.

(** [x + y] *)
Definition plus (x y : value) : value :=
  if primitiveIsString x || primitiveIsString y
  then VStr (ToString x +:+ ToString y)
  else VNum (addNumbers (ToNumber x) (ToNumber y)).

(** The parameter at position [i] of a call with arguments [args]. *)
Definition parameter (i : nat) (args : list value) : value :=
  nth i args VUndefined.

(** [function add(x, y) { return x + y }] (lines 28-30) *)
Definition add (args : list value) : outcome :=
  let x := parameter 0 args in
  let y := parameter 1 args in
  Return (plus x y).

(** The function handed to [memoize] at lines 92-98:
    [n => { if (n === 0) { return 1 }; return n * factorial(n - 1) }] *)
Definition factorialFn : underlying :=
  λ factorial args st,
    let n := parameter 0 args in
    if strictEquals n (VNum (Int 0)) then Some (Return (VNum (Int 1)), st)
    else
      match factorial [VNum (subtractNumbers (ToNumber n) (Int 1))] st with
      | None => None
      | Some (Throw e, st') => Some (Throw e, st')
      | Some (Return r, st') =>
          Some (Return (VNum (multiplyNumbers (ToNumber n) (ToNumber r))),
                st')
      end.

(** [const memoizedAdd = memoize(add)] (line 74) *)
Definition memoizedAdd : nat → callable := memoized (pure add).

(** [const factorial = memoize(...)] (line 92) *)
Definition factorial : nat → callable := memoized factorialFn.

End Post.

(** ** Notions used in the statements *)

(** How a key can begin: with the first character of a JSON text or, when
    the first argument serializes to [undefined], with the delimiter. *)
Definition keyStart (k : string) : bool :=
  match k with
  | EmptyString => true
  | String c k' =>
      if decide (c = "t"%char) then
        match k' with String "r" _ => true | _ => false end
      else bool_decide (c ∈ String.list_ascii_of_string "-0123456789nf{")
           || bool_decide (c = JSON.dquote)
  end.

(** Any two of the argument lists in [calls] that derive the same key have
    the same outcome under [f]. *)
Definition agreeOnKeys (f : list value → outcome) (calls : list (list value))
    : Prop :=
  Forall (λ a, Forall (λ b, deriveKey a = deriveKey b → f a = f b) calls)
         calls.

(** Every defined value in the cache was returned by [f] for arguments in
    [seen] that derive its key. *)
Definition cachedFrom (f : list value → outcome) (seen : list (list value))
    (st : state) : Prop :=
  ∀ k v, cache st !! k = Some v → isDefined v = true →
         ∃ a, a ∈ seen ∧ deriveKey a = k ∧ f a = Return v.

(** [(...args) => args.length], a pure function that tells the empty
    argument list from any other. *)
Definition countArguments (args : list value) : outcome :=
  Return (VNum (Int (Z.of_nat (length args)))).

(** [() => undefined], a pure function without a result. *)
Definition noResult (args : list value) : outcome :=
  Return VUndefined.

(** [x => x === g ? 1 : undefined] for the function object [g]. *)
Definition oneForG (args : list value) : outcome :=
  if strictEquals (parameter 0 args) (VFun "g")
  then Return (VNum (Int 1))
  else Return VUndefined.

(** [() => { throw 'no' }] *)
Definition alwaysThrows (args : list value) : outcome :=
  Throw (VStr "no").

(** An options object whose key derivation sends every call to the key
    [k] and whose cache backend starts out with a value under that key. *)
Definition constantKeyOptions : options :=
  Options (Some (λ _, "k")) (Some (λ _, {["k" := VNum (Int 99)]})).

(** The world before anything is allocated. *)
Definition emptyWorld : world := World [] [] [].

(** The world [w] with the object at location [l] replaced by [c]. *)
Definition withObject (l : nat) (c : gmap string value) (w : world) : world :=
  World (<[l := c]> (heap w)) (output w) (trace w).

(** An underlying function makes no use of the fuel its callee runs out
    of: when it has a result with the callee [g], it has the same result
    with any callee that has all results of [g]. *)
Definition monotone (fn : underlying) : Prop :=
  ∀ g g' : callable,
    (∀ args st r, g args st = Some r → g' args st = Some r) →
    ∀ args st r, fn g args st = Some r → fn g' args st = Some r.

(** The cache entries for the arguments [0] to [5] of [factorial]. *)
Definition factorialEntries : list (string * value) :=
  map (λ p : Z * Z, (deriveKey [VNum (Int p.1)], VNum (Int p.2)))
      [(0, 1); (1, 1); (2, 2); (3, 6); (4, 24); (5, 120)]%Z.

(** *** Reading a key back

    The functions below take a derived key apart again.  They are not part
    of the program; the statements about collisions of keys use them. *)

Definition isDigit (c : ascii) : bool :=
  let n := N_of_ascii c in (48 <=? n)%N && (n <=? 57)%N.

Fixpoint allDigits (s : string) : bool :=
  match s with
  | EmptyString => true
  | String c s' => isDigit c && allDigits s'
  end.

(** The longest prefix of digits, and what follows it. *)
Fixpoint spanDigits (s : string) : string * string :=
  match s with
  | EmptyString => (EmptyString, EmptyString)
  | String c s' =>
      if isDigit c
      then let (d, r) := spanDigits s' in (String c d, r)
      else (EmptyString, s)
  end.

(** The rest of a quoted string after its opening quote, up to and with
    the closing quote, and what follows it; the character after a
    backslash is passed over. *)
Fixpoint scanQuoted (s : string) : string * string :=
  match s with
  | EmptyString => (EmptyString, EmptyString)
  | String c s' =>
      if decide (c = JSON.dquote) then (String c EmptyString, s')
      else if decide (c = JSON.backslash) then
        match s' with
        | EmptyString => (String c EmptyString, EmptyString)
        | String c' s'' =>
            let (q, r) := scanQuoted s'' in (String c (String c' q), r)
        end
      else let (q, r) := scanQuoted s' in (String c q, r)
  end.

Fixpoint splitAt (n : nat) (s : string) : string * string :=
  match n, s with
  | S n', String c s' => let (p, r) := splitAt n' s' in (String c p, r)
  | _, _ => (EmptyString, s)
  end.

(** The serialization of the first argument in a key, and the rest of the
    key: nothing when the key is empty or begins with the delimiter, else
    the number, the quoted string or the literal the key begins with. *)
Definition splitFirst (k : string) : string * string :=
  match k with
  | EmptyString => (EmptyString, EmptyString)
  | String c k' =>
      if decide (c = "-"%char) then
        match k' with
        | String "-" _ => (EmptyString, k)
        | _ => let (d, r) := spanDigits k' in (String c d, r)
        end
      else if isDigit c then spanDigits k
      else if decide (c = JSON.dquote) then
        let (q, r) := scanQuoted k' in (String c q, r)
      else if decide (c = "{"%char) then splitAt 2 k
      else if decide (c = "f"%char) then splitAt 5 k
      else splitAt 4 k
  end.

(** What can follow the serialization of an argument in a key: nothing, or
    the delimiter and more. *)
Definition afterArgument (r : string) : Prop :=
  r = EmptyString ∨ ∃ r', r = delimiter +:+ r'.

Definition hexValue (c : ascii) : N :=
  let n := N_of_ascii c in
  if (n <? 58)%N then (n - 48)%N else (n - 87)%N.

(** The code unit that the escaped form at the head of [s] stands for, and
    what follows that form; [None] at a quote and at the end. *)
Definition unquoteChar (s : string) : option (ascii * string) :=
  match s with
  | EmptyString => None
  | String c s' =>
      if decide (c = JSON.dquote) then None
      else if decide (c = JSON.backslash) then
        match s' with
        | String "b" r => Some ("008"%char, r)
        | String "t" r => Some ("009"%char, r)
        | String "n" r => Some ("010"%char, r)
        | String "f" r => Some ("012"%char, r)
        | String "r" r => Some ("013"%char, r)
        | String "u" (String _ (String _ (String h (String l r)))) =>
            Some (ascii_of_N (16 * hexValue h + hexValue l), r)
        | String c' r => Some (c', r)
        | EmptyString => None
        end
      else Some (c, s')
  end.

(** The values that [JSON.stringify] tells apart: [null], the booleans, the
    integers with [+0], the strings and [%Object.prototype%]; not
    [undefined] and the functions (no serialization), nor [NaN], the
    infinities (all [null]) and [-0] (as [+0]). *)
Definition distinguished (v : value) : bool :=
  match v with
  | VUndefined | VFun _ => false
  | VNum (Int _) => true
  | VNum _ => false
  | VNull | VBool _ | VStr _ | VObjectPrototype => true
  end.

(** The conversions of the language that this development leaves open,
    fixed to some functions for the examples. *)
Definition noStringToNumber (s : string) : number := NaN.
Definition noSourceText (name : string) : string := "".

(** The argument list of a call with the natural number [n]. *)
Definition numberArg (n : nat) : list value := [VNum (Int (Z.of_nat n))].

(** The cache [c] with the entries of [factorial] for [0] to [n]. *)
Fixpoint factorialCache (n : nat) (c : gmap string value)
    : gmap string value :=
  match n with
  | O => <[deriveKey (numberArg 0) := VNum (Int 1)]> c
  | S n' =>
      <[deriveKey (numberArg n) := VNum (Int (Z.of_nat (fact n)))]>
        (factorialCache n' c)
  end.

(** The argument lists [n], [n - 1], ..., [0]. *)
Fixpoint countdown (n : nat) : list (list value) :=
  numberArg n :: match n with O => [] | S n' => countdown n' end.

(** The argument lists [m + k], [m + k - 1], ..., [m + 1]. *)
Fixpoint climb (m k : nat) : list (list value) :=
  match k with
  | O => []
  | S k' => numberArg (m + k) :: climb m k'
  end.

(** [Number.isSafeInteger] on the integers: from [-(2^53 - 1)] to
    [2^53 - 1].  A sum, difference or product of two doubles that are
    integers is the exact integer when it is in this range; beyond it
    the language rounds to the nearest double.  The statements on [+]
    and [*] ask for results in this range. *)
Definition isSafeInteger (z : Z) : bool := (Z.abs z <=? 2 ^ 53 - 1)%Z.

(** * The counter of the post "What is a Closure?"

    [createCounter] of [src/posts/published/what-is-a-closure/index.mdx]
    (lines 48-69): the variable [count] in the closure, and the three
    functions of the returned object as functions of its value. *)

Module Counter.

(** [let count = 0] *)
Definition createCounter : number := Int 0.

(** [state: () => count] *)
Definition state (count : number) : value := VNum count.

(** [increment: () => { count++ }]: the result and the new [count]. *)
Definition increment (count : number) : value * number :=
  (VUndefined, addNumbers count (Int 1)).

(** [decrement: () => { count-- }] *)
Definition decrement (count : number) : value * number :=
  (VUndefined, subtractNumbers count (Int 1)).

(** The calls that change a counter. *)
Inductive method : Type :=
  | Increment
  | Decrement.

#[global] Instance method_eq_dec : EqDecision method.
Proof. solve_decision. Defined.

Definition invoke (m : method) (count : number) : value * number :=
  match m with
  | Increment => increment count
  | Decrement => decrement count
  end.

(** Calls one after the other. *)
Definition invokeEach (ms : list method) (count : number) : number :=
  fold_left (λ c m, (invoke m c).2) ms count.

End Counter.

(** * The queue of the post "What is a Factory Function?"

    [createQueue] of
    [src/posts/published/what-is-a-factory-function/index.mdx] (lines
    63-87): the array [queue] in the closure, and the members of the
    returned object as functions of its contents. *)

Module Queue.

(** [const queue = []] *)
Definition createQueue : list value := [].

(** [const isEmpty = () => queue.length === 0] *)
Definition isEmpty (queue : list value) : bool :=
  strictEquals (VNum (Int (Z.of_nat (length queue)))) (VNum (Int 0)).

(** [enqueue(x) { queue.push(x) }]: the result and the new contents. *)
Definition enqueue (x : value) (queue : list value) : value * list value :=
  (VUndefined, queue ++ [x]).

(** [dequeue() { return queue.shift() }]: [shift] removes and returns the
    element at index 0, and returns [undefined] on an empty array. *)
Definition dequeue (queue : list value) : value * list value :=
  match queue with
  | [] => (VUndefined, [])
  | x :: rest => (x, rest)
  end.

(** [peek() { if (isEmpty()) return undefined;
              return queue[queue.length - 1] }] *)
Definition peek (queue : list value) : value :=
  if isEmpty queue then VUndefined
  else default VUndefined (queue !! (length queue - 1)%nat).

(** [get length() { return queue.length }] *)
Definition length (queue : list value) : value :=
  VNum (Int (Z.of_nat (List.length queue))).

(** [enqueue] for each element in turn. *)
Definition enqueueEach (xs : list value) (queue : list value) : list value :=
  fold_left (λ q x, (enqueue x q).2) xs queue.

(** [n] times [dequeue]: the results in order and the contents left. *)
Fixpoint dequeueTimes (n : nat) (queue : list value)
    : list value * list value :=
  match n with
  | O => ([], queue)
  | S n' =>
      let (x, queue1) := dequeue queue in
      let (xs, queue2) := dequeueTimes n' queue1 in
      (x :: xs, queue2)
  end.

End Queue.

(** * The notes of the post "The Wrapped State Setter Pattern"

    The three updaters of [src/unnamed/part_001] (lines 395-429): the
    functions that [createNote], [updateNote] and [deleteNote] hand to
    [setNotes], from the current notes to the next.  A note is an object,
    here the map of its own properties. *)

Module Notes.

(** [note.id] *)
Definition idOf (note : gmap string value) : value :=
  PlainObject.get note "id".

(** [Array.prototype.findIndex]: the index of the first element that
    satisfies [test], [-1] when there is none. *)
Fixpoint findIndexFrom {A : Type} (test : A → bool) (l : list A) (i : Z)
    : Z :=
  match l with
  | [] => (-1)%Z
  | x :: l' => if test x then i else findIndexFrom test l' (i + 1)%Z
  end.

Definition findIndex {A : Type} (test : A → bool) (l : list A) : Z :=
  findIndexFrom test l 0.

(** The index that [slice] makes of an argument: a negative one counts
    from the end, and every one is kept within the array. *)
Definition relativeIndex (k : Z) (len : nat) : nat :=
  if (k <? 0)%Z then Z.to_nat (Z.max (Z.of_nat len + k) 0)
  else Nat.min (Z.to_nat k) len.

(** [l.slice(start, end)]; [None] for a missing [end]. *)
Definition slice {A : Type} (start : Z) (end_ : option Z) (l : list A)
    : list A :=
  let from := relativeIndex start (length l) in
  let to := match end_ with
            | Some e => relativeIndex e (length l)
            | None => length l
            end in
  take (to - from) (drop from l).

(** [{ ...a, ...b }]: the properties of [a], and those of [b] over them. *)
Definition spread (a b : gmap string value) : gmap string value := b ∪ a.

(** [currentNotes => [...currentNotes, note]] (line 400) *)
Definition createNote (note : gmap string value)
    (currentNotes : list (gmap string value)) : list (gmap string value) :=
  currentNotes ++ [note].

(** The updater of [updateNote] (lines 404-414). *)
Definition updateNote (update : gmap string value)
    (currentNotes : list (gmap string value)) : list (gmap string value) :=
  let index :=
    findIndex (λ note, strictEquals (idOf note) (idOf update)) currentNotes in
  if (index <? 0)%Z then currentNotes
  else
    slice 0 (Some index) currentNotes
    ++ [spread (default ∅ (currentNotes !! Z.to_nat index)) update]
    ++ slice (index + 1) None currentNotes.

(** The updater of [deleteNote] (lines 418-424). *)
Definition deleteNote (id : value) (currentNotes : list (gmap string value))
    : list (gmap string value) :=
  let index :=
    findIndex (λ note, strictEquals (idOf note) id) currentNotes in
  if (index <? 0)%Z then currentNotes
  else
    slice 0 (Some index) currentNotes ++ slice (index + 1) None currentNotes.

End Notes.

(** * The [Spacer] component

    [Spacer] of [src/snippets/spacer.mdx] (lines 49-81): the object
    [margins] that the component gives its [div] as style. *)

Module Spacer.

(** [ToBoolean] *)
Definition ToBoolean (v : value) : bool :=
  match v with
  | VUndefined | VNull => false
  | VBool b => b
  | VNum NaN => false
  | VNum n => negb (isZero n)
  | VStr s => negb (bool_decide (s = ""))
  | VFun _ | VObjectPrototype => true
  end.

(** A parameter with the default [0]: the default stands in for a missing
    or [undefined] property. *)
Definition orZero (v : value) : value :=
  match v with
  | VUndefined => VNum (Int 0)
  | _ => v
  end.

(** The properties of [Spacer] that set margins. *)
Record props : Type := Props {
  all : value;
  horz : value;
  vert : value;
  top : value;
  right : value;
  bottom : value;
  left : value
}.

(** [...(test && { ... })] in an object literal that has the properties
    [target] so far: the properties of the object when [test] is truthy,
    over those there are; nothing when it is falsy, as a falsy primitive
    has no property to spread. *)
Definition spreadWhen (test : value) (object target : gmap string value)
    : gmap string value :=
  if ToBoolean test then object ∪ target else target.

(** The object [margins] (lines 59-78). *)
Definition margins (p : props) : gmap string value :=
  let all := orZero (all p) in
  let horz := orZero (horz p) in
  let vert := orZero (vert p) in
  let top := orZero (top p) in
  let right := orZero (right p) in
  let bottom := orZero (bottom p) in
  let left := orZero (left p) in
  spreadWhen left {[ "marginLeft" := left ]}
    (spreadWhen bottom {[ "marginBottom" := bottom ]}
      (spreadWhen right {[ "marginRight" := right ]}
        (spreadWhen top {[ "marginTop" := top ]}
          (spreadWhen vert {[ "marginTop" := vert; "marginBottom" := vert ]}
            (spreadWhen horz {[ "marginLeft" := horz; "marginRight" := horz ]}
              (spreadWhen all
                 {[ "marginTop" := all; "marginRight" := all;
                    "marginBottom" := all; "marginLeft" := all ]}
                 ∅)))))).

(** The first truthy value of a list, if there is one. *)
Definition firstTruthy (vs : list value) : option value :=
  head (List.filter ToBoolean vs).

End Spacer.

(** * The budget functions of the post "Encapsulation"

    [getIncome] and [getSpent] of
    [src/posts/published/encapsulation/index.mdx] (lines 108-120) and the
    [getIncome] written with [forEach] (lines 155-163).  A transaction has
    an [inflow] and an [outflow], each either missing or an object with an
    [amount]. *)

Module Budget.

(** A transaction: the [amount] of its [inflow] and of its [outflow],
    [None] for a missing one. *)
Record transaction : Type := Transaction {
  inflow : option value;
  outflow : option value
}.

(** [l.reduce(callback, initial)] *)
Definition reduce {A B : Type} (callback : B → A → B) (initial : B)
    (l : list A) : B :=
  fold_left callback l initial.

(** [l.forEach(callback)] for a callback that assigns to one variable of
    its scope: from the value of the variable before to its value after. *)
Fixpoint forEach {A S : Type} (callback : A → S → S) (l : list A) (s : S)
    : S :=
  match l with
  | [] => s
  | x :: l' => forEach callback l' (callback x s)
  end.

Section Functions.

Variable StringToNumber : string → number.
Variable sourceText : string → string.

(** [getIncome] (lines 108-113) *)
Definition getIncome (transactions : list transaction) : value :=
  reduce
    (λ acc t,
       match inflow t with
       | Some amount => plus StringToNumber sourceText acc amount
       | None => acc
       end)
    (VNum (Int 0)) transactions.

(** [getSpent] (lines 115-120) *)
Definition getSpent (transactions : list transaction) : value :=
  reduce
    (λ acc t,
       match outflow t with
       | Some amount => plus StringToNumber sourceText acc amount
       | None => acc
       end)
    (VNum (Int 0)) transactions.

(** [getIncome] with [forEach] (lines 155-163): [let total = 0], the loop
    that adds to [total], and [return total]. *)
Definition getIncomeForEach (transactions : list transaction) : value :=
  let total := VNum (Int 0) in
  forEach
    (λ t total,
       match inflow t with
       | Some amount => plus StringToNumber sourceText total amount
       | None => total
       end)
    transactions total.

End Functions.

(** The sum of the integer amounts among the given ones. *)
Fixpoint sumOfAmounts (amounts : list (option value)) : Z :=
  match amounts with
  | [] => 0
  | Some (VNum (Int z)) :: rest => z + sumOfAmounts rest
  | _ :: rest => sumOfAmounts rest
  end.

(** The sum of the magnitudes of the integer amounts: a bound for each
    amount and for each sum of the first amounts. *)
Fixpoint sumOfMagnitudes (amounts : list (option value)) : Z :=
  match amounts with
  | [] => 0
  | Some (VNum (Int z)) :: rest => Z.abs z + sumOfMagnitudes rest
  | _ :: rest => sumOfMagnitudes rest
  end.

(** Each amount is missing or an integer. *)
Definition integerOrMissing (amount : option value) : Prop :=
  match amount with
  | None => True
  | Some (VNum (Int _)) => True
  | Some _ => False
  end.

End Budget.

(** * Properties *)

(** ** Strings *)

Lemma append_cons (c : ascii) (s t : string) :
  String c s +:+ t = String c (s +:+ t).
Proof. reflexivity. Qed.

Lemma append_nil_r (s : string) : s +:+ "" = s.
Proof.
  induction s as [|c s IH]; [done|]. by rewrite append_cons, IH.
Qed.

Lemma append_assoc (s t u : string) : (s +:+ t) +:+ u = s +:+ (t +:+ u).
Proof.
  induction s as [|c s IH]; [done|]. by rewrite !append_cons, IH.
Qed.

(** ** Keys *)

(** [join] peels off its first element. *)
Lemma join_cons (sep : string) (e : option string) (es : list (option string)) :
  join sep (e :: es) =
  default "" e +:+ match es with [] => "" | _ => sep +:+ join sep es end.
Proof.
  unfold join. destruct es as [|e' es]; [|done].
  symmetry. apply append_nil_r.
Qed.

Lemma deriveKey_cons (v : value) (args : list value) :
  deriveKey (v :: args) =
  default "" (JSON.stringify v) +:+
  match args with [] => "" | _ => delimiter +:+ deriveKey args end.
Proof.
  unfold deriveKey. simpl map. rewrite join_cons. by destruct args.
Qed.

Lemma string_of_uint_start (d : Decimal.uint) (rest : string) :
  keyStart (NilZero.string_of_uint d +:+ rest) = true.
Proof. by destruct d. Qed.

Lemma numberToString_start (z : Z) (rest : string) :
  keyStart (JSON.numberToString (Int z) +:+ rest) = true.
Proof.
  unfold JSON.numberToString, NilZero.string_of_int.
  destruct (Z.to_int z) as [d|d]; [apply string_of_uint_start | done].
Qed.

Lemma stringify_start (v : value) (s rest : string) :
  JSON.stringify v = Some s → keyStart (s +:+ rest) = true.
Proof.
  destruct v as [| |[]|[]|?|?|]; simpl; intros [= <-]; try done.
  apply numberToString_start.
Qed.

Lemma deriveKey_start (args : list value) : keyStart (deriveKey args) = true.
Proof.
  destruct args as [|v args]; [done|].
  rewrite deriveKey_cons.
  destruct (JSON.stringify v) as [s|] eqn:Hs; simpl default.
  - by eapply stringify_start.
  - by destruct args.
Qed.

Lemma keyStart_not_inherited (k : string) :
  keyStart k = true → PlainObject.inherited k = VUndefined.
Proof.
  intros Hk. unfold PlainObject.inherited.
  destruct (decide (k = "__proto__")) as [->|_]; [done|].
  destruct (decide (k ∈ PlainObject.prototypeMethods)) as [Hin|_]; [|done].
  unfold PlainObject.prototypeMethods in Hin.
  repeat (apply elem_of_cons in Hin as [->|Hin]; [done|]).
  by apply elem_of_nil in Hin.
Qed.

(** No derived key names a property of [%Object.prototype%]: a lookup of a
    derived key in the cache sees own properties only. *)
Lemma get_deriveKey (own : gmap string value) (args : list value) :
  PlainObject.get own (deriveKey args) =
  default VUndefined (own !! deriveKey args).
Proof.
  unfold PlainObject.get. destruct (own !! deriveKey args); [done|].
  apply keyStart_not_inherited, deriveKey_start.
Qed.

(** ** One call of a wrapped pure function *)

Section OneCall.

Variable f : list value → outcome.

(** A hit (lines 50-55): a defined value is stored under the key. *)
Lemma memoized_hit (fn : underlying) (fuel : nat) (args : list value)
    (st : state) :
  isDefined (PlainObject.get (cache st) (deriveKey args)) = true →
  memoized fn (S fuel) args st =
  Some (Return (PlainObject.get (cache st) (deriveKey args)),
        consoleLog "from cache" st).
Proof. intros H. simpl. by rewrite H. Qed.

(** A miss on which the function returns (lines 57-60). *)
Lemma memoized_miss_return (fuel : nat) (args : list value) (st : state)
    (r : value) :
  isDefined (PlainObject.get (cache st) (deriveKey args)) = false →
  f args = Return r →
  memoized (pure f) (S fuel) args st =
  Some (Return r, cacheSet (deriveKey args) r (recordInvocation args st)).
Proof. intros H Hf. simpl. by rewrite H, Hf. Qed.

(** A miss on which the function throws (line 57). *)
Lemma memoized_miss_throw (fuel : nat) (args : list value) (st : state)
    (e : value) :
  isDefined (PlainObject.get (cache st) (deriveKey args)) = false →
  f args = Throw e →
  memoized (pure f) (S fuel) args st =
  Some (Throw e, recordInvocation args st).
Proof. intros H Hf. simpl. by rewrite H, Hf. Qed.

(** A wrapped pure function returns on every call, whatever the state. *)
Lemma memoized_pure_total (fuel : nat) (args : list value) (st : state) :
  ∃ o st', memoized (pure f) (S fuel) args st = Some (o, st').
Proof.
  destruct (isDefined (PlainObject.get (cache st) (deriveKey args))) eqn:H.
  - eauto using memoized_hit.
  - destruct (f args) eqn:Hf;
      eauto using memoized_miss_return, memoized_miss_throw.
Qed.

End OneCall.

Lemma get_cacheSet_eq (st : state) (args : list value) (v : value) :
  PlainObject.get (cache (cacheSet (deriveKey args) v st)) (deriveKey args) = v.
Proof.
  rewrite get_deriveKey. simpl. unfold PlainObject.set.
  by rewrite lookup_insert_eq.
Qed.

Lemma fresh_miss (args : list value) :
  isDefined (PlainObject.get (cache fresh) (deriveKey args)) = false.
Proof. rewrite get_deriveKey. simpl. by rewrite lookup_empty. Qed.

Lemma callEach_cons (fn : underlying) (fuel : nat) (args : list value)
    (calls : list (list value)) (st st1 st2 : state) (o : outcome)
    (os : list outcome) :
  memoized fn fuel args st = Some (o, st1) →
  callEach fn fuel calls st1 = Some (os, st2) →
  callEach fn fuel (args :: calls) st = Some (o :: os, st2).
Proof. intros H1 H2. simpl. by rewrite H1, H2. Qed.

(** ** C1: the result of a wrapped pure function *)

Lemma cachedFrom_app (f : list value → outcome) (seen more : list (list value))
    (st : state) :
  cachedFrom f seen st → cachedFrom f (seen ++ more) st.
Proof.
  intros Hc k v Hk Hv. destruct (Hc k v Hk Hv) as (a & Ha & ?).
  exists a. split; [|done]. apply elem_of_app. by left.
Qed.

Lemma elem_of_snoc {A : Type} (l : list A) (x : A) : x ∈ l ++ [x].
Proof. apply elem_of_app. right. constructor. Qed.

(** One call keeps the cache made of results of [f], and gives the result
    of [f], as long as colliding argument lists have equal results. *)
Lemma memoized_cachedFrom (f : list value → outcome) (fuel : nat)
    (seen : list (list value)) (args : list value) (st : state) :
  cachedFrom f seen st →
  (∀ b, b ∈ seen → deriveKey b = deriveKey args → f b = f args) →
  ∃ st', memoized (pure f) (S fuel) args st = Some (f args, st')
         ∧ cachedFrom f (seen ++ [args]) st'.
Proof.
  intros Hc Hagree.
  destruct (isDefined (PlainObject.get (cache st) (deriveKey args))) eqn:Hd.
  - rewrite (memoized_hit _ _ _ _ Hd). rewrite get_deriveKey in Hd |- *.
    destruct (cache st !! deriveKey args) as [v|] eqn:Hk; [|done].
    destruct (Hc _ _ Hk Hd) as (b & Hb & Hkey & Hfb).
    rewrite <- (Hagree b Hb Hkey), Hfb. eexists; split; [done|].
    by apply cachedFrom_app.
  - destruct (f args) as [r|e] eqn:Hf.
    + rewrite (memoized_miss_return f _ _ _ r Hd Hf). eexists; split; [done|].
      intros k v Hk Hv. simpl in Hk. unfold PlainObject.set in Hk.
      destruct (decide (deriveKey args = k)) as [<-|Hne].
      * rewrite lookup_insert_eq in Hk. injection Hk as Hrv. subst v.
        exists args. split; [apply elem_of_snoc | done].
      * rewrite lookup_insert_ne in Hk by done.
        by apply (cachedFrom_app f seen [args] st Hc).
    + rewrite (memoized_miss_throw f _ _ _ e Hd Hf). eexists; split; [done|].
      by apply cachedFrom_app.
Qed.

Lemma callEach_cachedFrom (f : list value → outcome) (fuel : nat)
    (calls seen : list (list value)) (st : state) :
  cachedFrom f seen st →
  (∀ a b, a ∈ seen ++ calls → b ∈ seen ++ calls →
          deriveKey a = deriveKey b → f a = f b) →
  ∃ st', callEach (pure f) (S fuel) calls st = Some (map f calls, st')
         ∧ cachedFrom f (seen ++ calls) st'.
Proof.
  revert seen st. induction calls as [|args calls IH]; intros seen st Hc Hagree.
  - exists st. split; [done|]. by rewrite app_nil_r.
  - assert (Hsplit : seen ++ args :: calls = (seen ++ [args]) ++ calls)
      by (by rewrite <- app_assoc).
    rewrite Hsplit in Hagree |- *.
    destruct (memoized_cachedFrom f fuel seen args st Hc) as (st1 & H1 & Hc1).
    { intros b Hb. apply Hagree; apply elem_of_app; left;
        [apply elem_of_app; by left | apply elem_of_snoc]. }
    destruct (IH (seen ++ [args]) st1 Hc1 Hagree) as (st2 & H2 & Hc2).
    exists st2. split; [by apply (callEach_cons _ _ _ _ _ st1) | done].
Qed.

Lemma agreeOnKeys_spec (f : list value → outcome) (calls : list (list value)) :
  agreeOnKeys f calls →
  ∀ a b, a ∈ calls → b ∈ calls → deriveKey a = deriveKey b → f a = f b.
Proof.
  unfold agreeOnKeys. rewrite Forall_forall. intros H a b Ha Hb.
  specialize (H a Ha). rewrite Forall_forall in H. by apply H.
Qed.

(** C1 (amended).  On a new wrapped function, every call of a sequence of
    calls gives the outcome of the pure function [f] on the same
    arguments, provided any two argument lists of the sequence that derive
    the same key have the same outcome under [f]. *)
Theorem memoized_agrees_with_fn (f : list value → outcome) (fuel : nat)
    (calls : list (list value)) :
  agreeOnKeys f calls →
  ∃ st', callEach (pure f) (S fuel) calls fresh = Some (map f calls, st').
Proof.
  intros Hagree.
  destruct (callEach_cachedFrom f fuel calls [] fresh) as (st' & H & _).
  - intros k v Hk. simpl in Hk. by rewrite lookup_empty in Hk.
  - simpl. by apply agreeOnKeys_spec.
  - by exists st'.
Qed.

Lemma memoized_agrees_with_fn_witness :
  ∃ st', callEach (pure countArguments) 1
           [[VNum (Int 12); VNum (Int 3)]; [VNum (Int 1)];
            [VNum (Int 12); VNum (Int 3)]] fresh =
         Some ([Return (VNum (Int 2)); Return (VNum (Int 1));
                Return (VNum (Int 2))], st').
Proof.
  apply (memoized_agrees_with_fn countArguments 0
           [[VNum (Int 12); VNum (Int 3)]; [VNum (Int 1)];
            [VNum (Int 12); VNum (Int 3)]]).
  unfold agreeOnKeys. repeat constructor; vm_compute; congruence.
Defined.

(** C1 as stated fails: after the call with no argument has stored its
    result [0] under the empty key, the call with the one argument
    [undefined] derives the same key and gets [0], where the function
    itself gives [1]. *)
Lemma memoized_differs_from_fn :
  ∃ st1,
    memoized (pure countArguments) 1 [] fresh
      = Some (Return (VNum (Int 0)), st1) ∧
    fst <$> memoized (pure countArguments) 1 [VUndefined] st1
      = Some (Return (VNum (Int 0))) ∧
    countArguments [VUndefined] = Return (VNum (Int 1)).
Proof. eexists. split; [reflexivity|]. split; vm_compute; reflexivity. Qed.

(** ** C2 and C9: calling again with the same arguments *)

Lemma callEach_hits (fn : underlying) (fuel : nat) (args : list value)
    (n : nat) (st : state) :
  isDefined (PlainObject.get (cache st) (deriveKey args)) = true →
  callEach fn (S fuel) (replicate n args) st =
  Some (replicate n (Return (PlainObject.get (cache st) (deriveKey args))),
        State (cache st) (console st ++ replicate n "from cache")
              (invoked st)).
Proof.
  revert st. induction n as [|n IH]; intros st Hd.
  - simpl. rewrite app_nil_r. by destruct st.
  - change (replicate (S n) args) with (args :: replicate n args).
    erewrite callEach_cons;
      [reflexivity | by apply memoized_hit | rewrite IH by done].
    simpl. by rewrite <- app_assoc.
Qed.

(** C2 (amended).  When the pure function [f] returns a value other than
    [undefined] for the arguments [a], and no defined value is stored under
    the key of [a] yet, then [N + 1] calls with [a] in a row invoke [f]
    once: all of them return that value, the last [N] from the cache. *)
Theorem repeated_calls_invoke_once (f : list value → outcome) (fuel N : nat)
    (a : list value) (v : value) (st : state) :
  f a = Return v →
  isDefined v = true →
  isDefined (PlainObject.get (cache st) (deriveKey a)) = false →
  callEach (pure f) (S fuel) (replicate (S N) a) st =
  Some (replicate (S N) (Return v),
        State (<[deriveKey a := v]> (cache st))
              (console st ++ replicate N "from cache")
              (invoked st ++ [a])).
Proof.
  intros Hf Hv Hmiss.
  change (replicate (S N) a) with (a :: replicate N a).
  erewrite callEach_cons;
    [reflexivity | by apply memoized_miss_return | rewrite callEach_hits].
  - by rewrite get_cacheSet_eq.
  - by rewrite get_cacheSet_eq.
Qed.

Lemma repeated_calls_invoke_once_witness :
  callEach (pure countArguments) 1 (replicate 3 [VNum (Int 7)]) fresh =
  Some (replicate 3 (Return (VNum (Int 1))),
        State (<[deriveKey [VNum (Int 7)] := VNum (Int 1)]> ∅)
              (replicate 2 "from cache") [[VNum (Int 7)]]).
Proof.
  apply (repeated_calls_invoke_once countArguments 0 2 [VNum (Int 7)]
           (VNum (Int 1)) fresh); reflexivity.
Defined.

(** C2 as stated fails: a pure function that returns [undefined] is invoked
    on each of two calls with the same argument, and nothing comes from the
    cache. *)
Lemma repeated_calls_invoke_twice :
  ∃ st', callEach (pure noResult) 1 [[VNum (Int 1)]; [VNum (Int 1)]] fresh
           = Some ([Return VUndefined; Return VUndefined], st')
         ∧ invoked st' = [[VNum (Int 1)]; [VNum (Int 1)]]
         ∧ console st' = [].
Proof. eexists. split; [vm_compute; reflexivity|]. split; reflexivity. Qed.

(** C9.  When the pure function [f] returns [undefined] for the arguments
    [a], and no defined value is stored under the key of [a], every one of
    [N] calls with [a] in a row invokes [f] and returns [undefined];
    nothing is taken from the cache, and the key still holds no defined
    value afterwards. *)
Theorem undefined_result_invokes_again (f : list value → outcome)
    (fuel N : nat) (a : list value) (st : state) :
  f a = Return VUndefined →
  isDefined (PlainObject.get (cache st) (deriveKey a)) = false →
  ∃ st', callEach (pure f) (S fuel) (replicate N a) st
           = Some (replicate N (f a), st')
         ∧ invoked st' = invoked st ++ replicate N a
         ∧ console st' = console st
         ∧ isDefined (PlainObject.get (cache st') (deriveKey a)) = false.
Proof.
  intros Hf. rewrite Hf. revert st. induction N as [|N IH]; intros st Hmiss.
  - exists st. simpl. by rewrite app_nil_r.
  - set (st1 := cacheSet (deriveKey a) VUndefined (recordInvocation a st)).
    destruct (IH st1) as (st' & Hrun & Hinv & Hcon & Hstill).
    { unfold st1. by rewrite get_cacheSet_eq. }
    exists st'. split; [|split; [|done]].
    + change (replicate (S N) a) with (a :: replicate N a).
      by erewrite callEach_cons;
        [reflexivity | by apply memoized_miss_return | exact Hrun].
    + rewrite Hinv. simpl. by rewrite <- app_assoc.
Qed.

Lemma undefined_result_invokes_again_witness :
  ∃ st', callEach (pure noResult) 1 (replicate 3 [VNum (Int 1)]) fresh
           = Some (replicate 3 (noResult [VNum (Int 1)]), st')
         ∧ invoked st' = invoked fresh ++ replicate 3 [VNum (Int 1)]
         ∧ console st' = console fresh
         ∧ isDefined (PlainObject.get (cache st') (deriveKey [VNum (Int 1)]))
           = false.
Proof.
  apply (undefined_result_invokes_again noResult 0 3 [VNum (Int 1)] fresh);
    reflexivity.
Defined.

(** C9 as stated fails: the function [oneForG] returns [undefined] for the
    function object [f], yet after a call with the function object [g],
    which derives the same key and stores [1] under it, the call with [f]
    takes [1] from the cache: the function is not invoked again, and the
    result is not the one it has for [f]. *)
Lemma undefined_result_taken_from_cache :
  oneForG [VFun "f"] = Return VUndefined
  ∧ deriveKey [VFun "f"] = deriveKey [VFun "g"]
  ∧ ∃ st1 st2,
      memoized (pure oneForG) 1 [VFun "g"] fresh
        = Some (Return (VNum (Int 1)), st1)
      ∧ memoized (pure oneForG) 1 [VFun "f"] st1
        = Some (Return (VNum (Int 1)), st2)
      ∧ invoked st2 = [[VFun "g"]]
      ∧ console st2 = ["from cache"].
Proof.
  split; [reflexivity|]. split; [reflexivity|].
  do 2 eexists. split; [reflexivity|]. split; [reflexivity|].
  split; reflexivity.
Qed.

(** ** C3: a function that throws *)

(** C3.  When the pure function [f] throws for the arguments [a] on a call
    that reaches it (no defined value is stored under the key of [a]), the
    call throws the same value, leaves the cache as it was, and a second
    call with [a] invokes [f] again, with the same end. *)
Theorem throw_is_propagated_and_not_cached (f : list value → outcome)
    (fuel : nat) (a : list value) (e : value) (st : state) :
  f a = Throw e →
  isDefined (PlainObject.get (cache st) (deriveKey a)) = false →
  ∃ st1 st2,
    memoized (pure f) (S fuel) a st = Some (Throw e, st1)
    ∧ cache st1 = cache st
    ∧ invoked st1 = invoked st ++ [a]
    ∧ memoized (pure f) (S fuel) a st1 = Some (Throw e, st2)
    ∧ cache st2 = cache st
    ∧ invoked st2 = invoked st ++ [a; a].
Proof.
  intros Hf Hmiss.
  exists (recordInvocation a st), (recordInvocation a (recordInvocation a st)).
  split; [by apply memoized_miss_throw|]. do 2 (split; [done|]).
  split; [by apply memoized_miss_throw|]. split; [done|].
  simpl. by rewrite <- app_assoc.
Qed.

Lemma throw_is_propagated_and_not_cached_witness :
  ∃ st1 st2,
    memoized (pure alwaysThrows) 1 [VNull] fresh = Some (Throw (VStr "no"), st1)
    ∧ cache st1 = cache fresh
    ∧ invoked st1 = invoked fresh ++ [[VNull]]
    ∧ memoized (pure alwaysThrows) 1 [VNull] st1
      = Some (Throw (VStr "no"), st2)
    ∧ cache st2 = cache fresh
    ∧ invoked st2 = invoked fresh ++ [[VNull]; [VNull]].
Proof.
  apply (throw_is_propagated_and_not_cached alwaysThrows 0 [VNull]
           (VStr "no") fresh); reflexivity.
Defined.

(** ** C5: how the cache changes *)



(** ** C10: arguments that serialize to [undefined] *)

Lemma concat_empty_cons (s : string) (l : list string) :
  String.concat "" (s :: l) = s +:+ String.concat "" l.
Proof. destruct l; [symmetry; apply append_nil_r | done]. Qed.

Lemma deriveKey_all_undefined (args : list value) :
  Forall (λ v, JSON.stringify v = None) args →
  deriveKey args = String.concat "" (replicate (length args - 1) delimiter).
Proof.
  induction 1 as [|v args Hv Hargs IH]; [done|].
  rewrite deriveKey_cons, Hv. destruct args as [|v' args]; [done|].
  rewrite IH.
  replace (length (v :: v' :: args) - 1) with (S (length (v' :: args) - 1))
    by (simpl; lia).
  change (replicate (S ?n) delimiter) with (delimiter :: replicate n delimiter).
  by rewrite concat_empty_cons.
Qed.

(** C10 (amended).  A call whose arguments each serialize to [undefined]
    derives the key made of one delimiter less than it has arguments: the
    empty string for no argument and for one argument.  Two such calls
    with as many delimiters share one cache entry: after the first has
    stored a defined result of the pure function [f], the second returns
    that result from the cache without invoking [f]. *)
Theorem undefined_arguments_share_key (f : list value → outcome) (fuel : nat)
    (a b : list value) (v : value) :
  Forall (λ x, JSON.stringify x = None) a →
  Forall (λ x, JSON.stringify x = None) b →
  length a - 1 = length b - 1 →
  f a = Return v →
  isDefined v = true →
  deriveKey a = String.concat "" (replicate (length a - 1) delimiter)
  ∧ ((length a ≤ 1)%nat → deriveKey a = "")
  ∧ deriveKey b = deriveKey a
  ∧ callEach (pure f) (S fuel) [a; b] fresh =
    Some ([Return v; Return v],
          State {[deriveKey a := v]} ["from cache"] [a]).
Proof.
  intros Ha Hb Hlen Hf Hv.
  pose proof (deriveKey_all_undefined a Ha) as Hka.
  pose proof (deriveKey_all_undefined b Hb) as Hkb.
  assert (Hab : deriveKey b = deriveKey a) by (by rewrite Hka, Hkb, Hlen).
  split; [done|]. split.
  { intros Hle. rewrite Hka. destruct a as [|? [|? ?]]; [done..|].
    simpl in Hle. lia. }
  split; [done|].
  erewrite callEach_cons; [reflexivity | |].
  { apply memoized_miss_return; [apply fresh_miss | exact Hf]. }
  erewrite callEach_cons; [reflexivity | | reflexivity].
  rewrite memoized_hit; rewrite Hab, get_cacheSet_eq; [|done].
  unfold consoleLog, cacheSet, recordInvocation, fresh, PlainObject.set.
  simpl. by rewrite insert_empty.
Qed.

Lemma undefined_arguments_share_key_witness :
  deriveKey [] = String.concat "" (replicate (length (@nil value) - 1) delimiter)
  ∧ ((length (@nil value) ≤ 1)%nat → deriveKey [] = "")
  ∧ deriveKey [VFun "g"] = deriveKey []
  ∧ callEach (pure countArguments) 1 [[]; [VFun "g"]] fresh =
    Some ([Return (VNum (Int 0)); Return (VNum (Int 0))],
          State {[deriveKey [] := VNum (Int 0)]} ["from cache"] [[]]).
Proof.
  apply (undefined_arguments_share_key countArguments 0 [] [VFun "g"]
           (VNum (Int 0)));
    repeat constructor.
Defined.

(** C10 as stated fails: the call with the two arguments [undefined] and a
    function, each of which serializes to [undefined], derives the key
    [---], not the empty key of the call without arguments. *)
Lemma two_undefined_arguments_key :
  Forall (λ x, JSON.stringify x = None) [VUndefined; VFun "g"]
  ∧ deriveKey [VUndefined; VFun "g"] = "---"
  ∧ deriveKey [] = ""
  ∧ deriveKey [VUndefined; VFun "g"] ≠ deriveKey [].
Proof. repeat split; [repeat constructor | done]. Qed.

(** ** C6: one cache per wrapped function *)

(** A call touches the object at the cache location of its wrapped
    function and no other: whatever is put at another location stays
    there, and the call proceeds as it would without it. *)
Lemma call_frame (m : instance) (fuel : nat) (args : list value) (w : world)
    (l : nat) (c : gmap string value) :
  l ≠ cacheOf m →
  call m fuel args (withObject l c w) =
  (λ r, (r.1, withObject l c r.2)) <$> call m fuel args w.
Proof.
  intros Hne. unfold call, withObject. simpl.
  rewrite list_lookup_insert_ne by done.
  destruct (heap w !! cacheOf m) as [own|]; [|done].
  destruct (memoized (fnOf m) fuel args _) as [[o st']|]; [|done].
  simpl. by rewrite list_insert_insert_ne.
Qed.

(** A call leaves the objects at other locations as they are. *)
Lemma call_other_location (m : instance) (fuel : nat) (args : list value)
    (w w' : world) (o : outcome) (l : nat) :
  call m fuel args w = Some (o, w') →
  l ≠ cacheOf m →
  heap w' !! l = heap w !! l.
Proof.
  unfold call. intros Hcall Hne.
  destruct (heap w !! cacheOf m) as [own|]; [|done].
  destruct (memoized (fnOf m) fuel args _) as [[o' st']|]; [|done].
  injection Hcall as _ <-. simpl. by rewrite list_lookup_insert_ne.
Qed.

(** C6.  Each call of [memoize] allocates one new, empty cache object and
    leaves the objects there are as they were; two wrapped functions, also
    of the same underlying function, have different cache objects; and a
    call of either neither depends on nor changes the cache object of the
    other. *)
Theorem instances_have_separate_caches (fn1 fn2 : underlying)
    (o1 o2 : option options) (w : world) :
  let m1 := (memoize fn1 o1 w).1 in
  let w1 := (memoize fn1 o1 w).2 in
  let m2 := (memoize fn2 o2 w1).1 in
  let w2 := (memoize fn2 o2 w1).2 in
  length (heap w1) = S (length (heap w))
  ∧ (∀ l, l < length (heap w) → heap w1 !! l = heap w !! l)
  ∧ cacheOf m1 ≠ cacheOf m2
  ∧ heap w2 !! cacheOf m1 = Some ∅
  ∧ heap w2 !! cacheOf m2 = Some ∅
  ∧ (∀ fuel args w' c,
       call m1 fuel args (withObject (cacheOf m2) c w') =
       (λ r, (r.1, withObject (cacheOf m2) c r.2)) <$> call m1 fuel args w')
  ∧ (∀ fuel args w' c,
       call m2 fuel args (withObject (cacheOf m1) c w') =
       (λ r, (r.1, withObject (cacheOf m1) c r.2)) <$> call m2 fuel args w').
Proof.
  simpl. rewrite !length_app. simpl.
  assert (Hne : length (heap w) ≠ length (heap w) + 1) by lia.
  split; [lia|]. split; [intros l Hl; by rewrite lookup_app_l|].
  split; [done|]. split.
  { rewrite lookup_app_l by (rewrite length_app; simpl; lia).
    by rewrite list_lookup_middle. }
  split; [by rewrite list_lookup_middle by (by rewrite length_app)|].
  split; intros fuel args w' c; apply call_frame; simpl; lia.
Qed.

(** ** C8: the arguments of [memoize] *)

(** C8 (amended).  [memoize] takes the function to wrap and nothing else:
    whatever is passed as options, the wrapped function is the one made
    without options; on its first call it derives the key with
    [JSON.stringify] and the delimiter and stores the result in a new
    plain object. *)
Theorem memoize_ignores_options (f : list value → outcome)
    (opts : option options) (fuel : nat) (a : list value) (v : value)
    (w : world) :
  memoize (pure f) opts w = memoize (pure f) None w
  ∧ (f a = Return v →
     call (memoize (pure f) opts w).1 (S fuel) a (memoize (pure f) opts w).2 =
     Some (Return v,
           World (heap w ++ [{[deriveKey a := v]}]) (output w)
                 (trace w ++ [a]))).
Proof.
  split; [done|]. intros Hf. unfold call, memoize. simpl fst. simpl snd.
  simpl cacheOf. simpl heap. rewrite list_lookup_middle by done.
  simpl fnOf. erewrite memoized_miss_return; [| |exact Hf].
  - unfold cacheSet, recordInvocation, PlainObject.set. simpl.
    rewrite insert_empty. do 3 f_equal.
    rewrite insert_app_r_alt by done. by rewrite Nat.sub_diag.
  - simpl. rewrite get_deriveKey. by rewrite lookup_empty.
Qed.

(** C8 as stated fails: with options that name a key derivation and a
    cache backend, the first call still computes its result with the
    function and stores it under the key derived by [JSON.stringify], in an
    object that was empty; the key and the stored value of the options are
    not used. *)
Lemma memoize_options_not_recognized :
  let m := (memoize (pure countArguments) (Some constantKeyOptions) emptyWorld).1 in
  let w := (memoize (pure countArguments) (Some constantKeyOptions) emptyWorld).2 in
  keyFn constantKeyOptions = Some (λ _, "k")
  ∧ (λ make, make ()) <$> cacheFactory constantKeyOptions
    = Some {["k" := VNum (Int 99)]}
  ∧ call m 1 [VNum (Int 7)] w =
    Some (Return (VNum (Int 1)),
          World [{["7" := VNum (Int 1)]}] [] [[VNum (Int 7)]]).
Proof. repeat split. Qed.

(** ** C7: the memoized factorial *)

(** More fuel does not change a result. *)
Lemma memoized_fuel_S (fn : underlying) (fuel : nat) :
  monotone fn →
  ∀ args st r,
    memoized fn fuel args st = Some r → memoized fn (S fuel) args st = Some r.
Proof.
  intros Hfn. induction fuel as [|fuel IH]; intros args st r; [done|].
  intros Hrun. simpl in Hrun. change (memoized fn (S (S fuel)) args st) with
    (if isDefined (PlainObject.get (cache st) (deriveKey args)) then
       Some (Return (PlainObject.get (cache (consoleLog "from cache" st))
                                     (deriveKey args)),
             consoleLog "from cache" st)
     else
       match fn (memoized fn (S fuel)) args (recordInvocation args st) with
       | None => None
       | Some (Throw e, st') => Some (Throw e, st')
       | Some (Return result, st') =>
           Some (Return result, cacheSet (deriveKey args) result st')
       end).
  destruct (isDefined (PlainObject.get (cache st) (deriveKey args))); [done|].
  destruct (fn (memoized fn fuel) args (recordInvocation args st))
    as [inner|] eqn:Hinner; [|done].
  by rewrite (Hfn _ _ IH _ _ _ Hinner).
Qed.

Lemma memoized_fuel_add (fn : underlying) (fuel extra : nat) :
  monotone fn →
  ∀ args st r,
    memoized fn fuel args st = Some r →
    memoized fn (fuel + extra) args st = Some r.
Proof.
  intros Hfn args st r Hrun. induction extra as [|extra IH].
  - by rewrite Nat.add_0_r.
  - rewrite Nat.add_succ_r. by apply memoized_fuel_S.
Qed.

Lemma factorialFn_monotone (StringToNumber : string → number)
    (sourceText : string → string) :
  monotone (factorialFn StringToNumber sourceText).
Proof.
  intros g g' Hg args st r. unfold factorialFn.
  destruct (strictEquals _ _); [done|].
  destruct (g _ st) as [inner|] eqn:Hinner; [|done].
  by rewrite (Hg _ _ _ Hinner).
Qed.

(** C7.  On a new [factorial], the call [factorial(5)] returns [120] with
    any fuel from 6 on; it invokes the wrapped function for 5, 4, 3, 2, 1
    and 0, takes nothing from the cache, and leaves the cache with the
    entries for the keys of 0 to 5 and no other.  The call [factorial(3)]
    after it returns the stored [6]; it writes the one line to the
    console, invokes nothing and leaves the cache as it is. *)
Theorem factorial_5_then_3 (StringToNumber : string → number)
    (sourceText : string → string) (fuel fuel' : nat) :
  let factorial := factorial StringToNumber sourceText in
  ∃ st5,
    factorial (6 + fuel) [VNum (Int 5)] fresh
      = Some (Return (VNum (Int 120)), st5)
    ∧ cache st5 = list_to_map factorialEntries
    ∧ dom (cache st5) = list_to_set (map deriveKey
        [[VNum (Int 0)]; [VNum (Int 1)]; [VNum (Int 2)];
         [VNum (Int 3)]; [VNum (Int 4)]; [VNum (Int 5)]])
    ∧ invoked st5 = [[VNum (Int 5)]; [VNum (Int 4)]; [VNum (Int 3)];
                     [VNum (Int 2)]; [VNum (Int 1)]; [VNum (Int 0)]]
    ∧ console st5 = []
    ∧ factorial (1 + fuel') [VNum (Int 3)] st5
      = Some (Return (VNum (Int 6)),
              State (cache st5) ["from cache"] (invoked st5)).
Proof.
  intros fact.
  exists (State (list_to_map factorialEntries) []
            [[VNum (Int 5)]; [VNum (Int 4)]; [VNum (Int 3)];
             [VNum (Int 2)]; [VNum (Int 1)]; [VNum (Int 0)]]).
  split.
  { apply memoized_fuel_add; [apply factorialFn_monotone|].
    vm_compute. reflexivity. }
  split; [done|]. split; [by vm_compute|]. split; [done|]. split; [done|].
  apply (memoized_fuel_add _ 1 fuel'); [apply factorialFn_monotone|].
  vm_compute. reflexivity.
Qed.

(** ** C4: keys of different argument lists *)

(** *** Numbers *)

Lemma spanDigits_app (ds r : string) :
  allDigits ds = true →
  spanDigits r = (EmptyString, r) →
  spanDigits (ds +:+ r) = (ds, r).
Proof.
  intros Hds Hr. induction ds as [|c ds IH]; [done|].
  simpl in Hds. apply andb_prop in Hds as [Hc Hds].
  rewrite append_cons. simpl. by rewrite Hc, (IH Hds).
Qed.

Lemma spanDigits_afterArgument (r : string) :
  afterArgument r → spanDigits r = (EmptyString, r).
Proof. by intros [->|[r' ->]]. Qed.

Lemma string_of_uint_allDigits (d : Decimal.uint) :
  allDigits (NilEmpty.string_of_uint d) = true.
Proof. induction d; simpl; done. Qed.

Lemma string_of_uint_digits (d : Decimal.uint) :
  ∃ c ds, NilZero.string_of_uint d = String c ds
          ∧ isDigit c = true ∧ allDigits ds = true.
Proof.
  destruct d; simpl; do 2 eexists;
    (split; [reflexivity|]); (split; [reflexivity|]);
    try apply string_of_uint_allDigits; done.
Qed.

Lemma splitFirst_number (z : Z) (r : string) :
  afterArgument r →
  splitFirst (JSON.numberToString (Int z) +:+ r)
  = (JSON.numberToString (Int z), r).
Proof.
  intros Hr. apply spanDigits_afterArgument in Hr.
  unfold JSON.numberToString, NilZero.string_of_int.
  destruct (Z.to_int z) as [d|d];
    destruct (string_of_uint_digits d) as (c & ds & -> & Hc & Hds).
  - rewrite append_cons. unfold splitFirst.
    destruct (decide (c = "-"%char)) as [->|_]; [done|]. rewrite Hc.
    rewrite <- append_cons. apply spanDigits_app; [|done].
    simpl. by rewrite Hc, Hds.
  - rewrite !append_cons. unfold splitFirst.
    destruct (decide ("-"%char = "-"%char)); [|done].
    destruct (decide (c = "-"%char)) as [->|Hne]; [done|].
    rewrite <- append_cons.
    rewrite (spanDigits_app (String c ds) r); [|simpl; by rewrite Hc, Hds|done].
    destruct c as [[] [] [] [] [] [] [] []]; done.
Qed.

(** *** Strings *)

(** The escaped form of a code unit is read back as that code unit. *)
Lemma unquoteChar_quoteChar (c : ascii) (r : string) :
  unquoteChar (JSON.quoteChar c +:+ r) = Some (c, r).
Proof. destruct c as [[] [] [] [] [] [] [] []]; reflexivity. Qed.

(** The scan passes over the escaped form of a code unit. *)
Lemma scanQuoted_quoteChar (c : ascii) (r : string) :
  scanQuoted (JSON.quoteChar c +:+ r)
  = (JSON.quoteChar c +:+ (scanQuoted r).1, (scanQuoted r).2).
Proof.
  destruct (scanQuoted r) as [q r'] eqn:Hscan.
  destruct c as [[] [] [] [] [] [] [] []];
    unfold JSON.quoteChar, JSON.unicodeEscape, String.append; simpl;
    rewrite ?Hscan; reflexivity.
Qed.

Lemma scanQuoted_quoteChars (s r : string) :
  scanQuoted ((JSON.quoteChars s +:+ String JSON.dquote "") +:+ r)
  = (JSON.quoteChars s +:+ String JSON.dquote "", r).
Proof.
  induction s as [|c s IH]; [done|].
  simpl JSON.quoteChars. rewrite !append_assoc, scanQuoted_quoteChar.
  rewrite <- append_assoc. by rewrite IH.
Qed.

Lemma splitFirst_quote (s r : string) :
  splitFirst (JSON.quote s +:+ r) = (JSON.quote s, r).
Proof.
  unfold JSON.quote. rewrite append_cons. unfold splitFirst.
  destruct (decide (JSON.dquote = "-"%char)); [done|].
  simpl. by rewrite scanQuoted_quoteChars.
Qed.

Lemma quoteChars_inj (s s' r r' : string) :
  JSON.quoteChars s +:+ String JSON.dquote r
  = JSON.quoteChars s' +:+ String JSON.dquote r' →
  s = s'.
Proof.
  revert s'. induction s as [|c s IH]; intros [|c' s'] Heq; [done|..].
  - apply (f_equal unquoteChar) in Heq. simpl JSON.quoteChars in Heq.
    by rewrite append_assoc, unquoteChar_quoteChar in Heq.
  - apply (f_equal unquoteChar) in Heq. simpl JSON.quoteChars in Heq.
    by rewrite append_assoc, unquoteChar_quoteChar in Heq.
  - apply (f_equal unquoteChar) in Heq. simpl JSON.quoteChars in Heq.
    rewrite !append_assoc, !unquoteChar_quoteChar in Heq.
    injection Heq as -> Heq. f_equal. by apply IH.
Qed.

Lemma quote_inj (s s' : string) : JSON.quote s = JSON.quote s' → s = s'.
Proof. unfold JSON.quote. intros [= Heq]. by apply quoteChars_inj in Heq. Qed.

(** *** One argument *)

(** The serialization of an argument, as [join] sees it. *)
Lemma splitFirst_stringify (v : value) (r : string) :
  afterArgument r →
  splitFirst (default "" (JSON.stringify v) +:+ r)
  = (default "" (JSON.stringify v), r).
Proof.
  intros Hr.
  destruct v as [| |[]|[]|s|?|]; try (by destruct Hr as [->|[r' ->]]).
  - exact (splitFirst_number z r Hr).
  - apply splitFirst_quote.
Qed.

Lemma numberToString_inj (z z' : Z) :
  JSON.numberToString (Int z) = JSON.numberToString (Int z') → z = z'.
Proof.
  unfold JSON.numberToString. intros Heq.
  apply (f_equal NilZero.int_of_string) in Heq.
  assert (Hnil : ∀ x, Z.to_int x ≠ Decimal.Pos Decimal.Nil
                      ∧ Z.to_int x ≠ Decimal.Neg Decimal.Nil).
  { intros [|p|p]; split; try done; simpl; intros [= H];
      by apply DecimalPos.Unsigned.to_uint_nonnil in H. }
  rewrite !NilZero.isi in Heq by apply Hnil.
  injection Heq as Heq. by apply DecimalZ.to_int_inj.
Qed.

Lemma numberToString_head (z : Z) :
  ∃ c ds, JSON.numberToString (Int z) = String c ds
          ∧ (c = "-"%char ∨ isDigit c = true).
Proof.
  unfold JSON.numberToString, NilZero.string_of_int.
  destruct (Z.to_int z) as [d|d]; [|by eauto].
  destruct (string_of_uint_digits d) as (c & ds & -> & Hc & _). eauto.
Qed.

Lemma stringify_Int (z : Z) :
  JSON.stringify (VNum (Int z)) = Some (JSON.numberToString (Int z)).
Proof. reflexivity. Qed.

(** [JSON.stringify] is injective on the values it tells apart. *)
Lemma stringify_inj (v v' : value) :
  distinguished v = true → distinguished v' = true →
  JSON.stringify v = JSON.stringify v' → v = v'.
Proof.
  intros Hv Hv' Heq.
  destruct v as [| |[]|[]|s|?|], v' as [| |[]|[]|s'|?|]; try done;
    apply (inj Some) in Heq;
    repeat match type of Heq with
      | context [if JSON.isFinite (Int ?z) then _ else _] =>
          change (if JSON.isFinite (Int z) then JSON.numberToString (Int z)
                  else "null")
            with (JSON.numberToString (Int z)) in Heq
      end;
    try (apply numberToString_inj in Heq; by subst);
    try (apply quote_inj in Heq; by subst);
    try (destruct (numberToString_head z) as (c & ds & Hz & [->|Hc]);
         rewrite Hz in Heq; injection Heq as ? ?; by subst).
Qed.

(** *** Argument lists *)

Lemma stringify_nonempty (v : value) : JSON.stringify v ≠ Some "".
Proof.
  destruct v as [| |[]|[]|s|?|]; try done.
  rewrite stringify_Int. intros Hz. apply (inj Some) in Hz.
  destruct (numberToString_head z) as (c & ds & Hz' & _). congruence.
Qed.

Lemma default_stringify_inj (v v' : value) :
  default "" (JSON.stringify v) = default "" (JSON.stringify v') →
  JSON.stringify v = JSON.stringify v'.
Proof.
  pose proof (stringify_nonempty v) as Hv.
  pose proof (stringify_nonempty v') as Hv'.
  destruct (JSON.stringify v), (JSON.stringify v');
    cbv [default from_option id]; intros Heq; subst; congruence.
Qed.

Lemma splitFirst_deriveKey (v : value) (args : list value) :
  splitFirst (deriveKey (v :: args))
  = (default "" (JSON.stringify v),
     match args with [] => "" | _ => delimiter +:+ deriveKey args end).
Proof.
  rewrite deriveKey_cons. apply splitFirst_stringify.
  destruct args; [by left | right; by eexists].
Qed.

(** The delimiter neither merges nor splits arguments: two argument lists
    that are not empty and derive the same key have the same
    serializations, argument by argument. *)
Lemma deriveKey_serializations (a b : list value) :
  a ≠ [] → b ≠ [] → deriveKey a = deriveKey b →
  map JSON.stringify a = map JSON.stringify b.
Proof.
  revert b. induction a as [|v a IH]; intros [|v' b] Ha Hb Hkey; try done.
  apply (f_equal splitFirst) in Hkey. rewrite !splitFirst_deriveKey in Hkey.
  injection Hkey as Hv Hrest. apply default_stringify_inj in Hv.
  simpl. rewrite Hv. f_equal.
  destruct a as [|v1 a], b as [|v1' b]; try done.
  apply IH; try done. by apply (inj (String.app delimiter)) in Hrest.
Qed.

Lemma map_stringify_inj (a b : list value) :
  Forall (λ v, distinguished v = true) a →
  Forall (λ v, distinguished v = true) b →
  map JSON.stringify a = map JSON.stringify b → a = b.
Proof.
  intros Ha. revert b. induction Ha as [|v a Hv Ha IH];
    intros b Hb; destruct Hb as [|v' b Hv' Hb]; try done.
  simpl. intros [= Hs Hrest]. f_equal; [by apply stringify_inj | by apply IH].
Qed.

Lemma deriveKey_inj (a b : list value) :
  Forall (λ v, distinguished v = true) a →
  Forall (λ v, distinguished v = true) b →
  deriveKey a = deriveKey b → a = b.
Proof.
  intros Ha Hb Hkey.
  assert (Hnil : ∀ v l, distinguished v = true → deriveKey (v :: l) ≠ "").
  { intros v l Hv. rewrite deriveKey_cons.
    pose proof (stringify_nonempty v) as Hne.
    destruct (JSON.stringify v) as [[|c s]|] eqn:Hs.
    - done.
    - cbv [default from_option id]. by rewrite append_cons.
    - by destruct v as [| |[]|[]|?|?|]. }
  destruct Ha as [|v a Hv Ha], Hb as [|v' b Hv' Hb]; [done|..].
  - symmetry in Hkey. by apply Hnil in Hkey.
  - by apply Hnil in Hkey.
  - apply map_stringify_inj; [by constructor..|].
    by apply deriveKey_serializations.
Qed.

(** C4 (amended).  Argument lists made of [null], booleans, integers and
    strings (the values [JSON.stringify] tells apart) never collide: two
    different ones derive different keys, and
    called one after the other on a new wrapped pure function [f] each is
    computed by [f] and has the outcome of [f], nothing coming from the
    cache. *)
Theorem distinct_arguments_distinct_keys (f : list value → outcome)
    (fuel : nat) (a b : list value) :
  Forall (λ v, distinguished v = true) a →
  Forall (λ v, distinguished v = true) b →
  a ≠ b →
  deriveKey a ≠ deriveKey b
  ∧ ∃ st', callEach (pure f) (S fuel) [a; b] fresh = Some ([f a; f b], st')
           ∧ invoked st' = [a; b]
           ∧ console st' = [].
Proof.
  intros Ha Hb Hne.
  assert (Hkey : deriveKey a ≠ deriveKey b)
    by (intros Hkey; by apply Hne, deriveKey_inj).
  split; [done|].
  assert (Hfirst : ∃ st1, memoized (pure f) (S fuel) a fresh = Some (f a, st1)
            ∧ invoked st1 = [a] ∧ console st1 = []
            ∧ isDefined (PlainObject.get (cache st1) (deriveKey b)) = false).
  { destruct (f a) as [r|e] eqn:Hf.
    - eexists. split; [apply memoized_miss_return; [apply fresh_miss|done]|].
      do 2 (split; [done|]). rewrite get_deriveKey. simpl.
      unfold PlainObject.set. by rewrite lookup_insert_ne, lookup_empty.
    - eexists. split; [apply memoized_miss_throw; [apply fresh_miss|done]|].
      do 2 (split; [done|]). apply fresh_miss. }
  destruct Hfirst as (st1 & Hrun1 & Hinv1 & Hcon1 & Hmiss).
  destruct (f b) as [r|e] eqn:Hf.
  - eexists. split.
    + eapply callEach_cons; [exact Hrun1|].
      eapply callEach_cons; [by apply memoized_miss_return | reflexivity].
    + simpl. by rewrite Hinv1, Hcon1.
  - eexists. split.
    + eapply callEach_cons; [exact Hrun1|].
      eapply callEach_cons; [by apply memoized_miss_throw | reflexivity].
    + simpl. by rewrite Hinv1, Hcon1.
Qed.

(** [add(12, 3)] and [add(1, 23)] (lines 47 and 67). *)
Lemma distinct_arguments_distinct_keys_witness :
  let add := add noStringToNumber noSourceText in
  deriveKey [VNum (Int 12); VNum (Int 3)] ≠ deriveKey [VNum (Int 1); VNum (Int 23)]
  ∧ ∃ st', callEach (pure add) 1
             [[VNum (Int 12); VNum (Int 3)]; [VNum (Int 1); VNum (Int 23)]]
             fresh
           = Some ([Return (VNum (Int 15)); Return (VNum (Int 24))], st')
           ∧ invoked st' = [[VNum (Int 12); VNum (Int 3)];
                           [VNum (Int 1); VNum (Int 23)]]
           ∧ console st' = [].
Proof.
  apply (distinct_arguments_distinct_keys (add noStringToNumber noSourceText) 0
           [VNum (Int 12); VNum (Int 3)] [VNum (Int 1); VNum (Int 23)]);
    [repeat constructor.. | done].
Defined.

(** The two calls of [memoizedAdd] leave two cache entries. *)
Example memoizedAdd_12_3_then_1_23 (StringToNumber : string → number)
    (sourceText : string → string) :
  callEach (pure (add StringToNumber sourceText)) 1
    [[VNum (Int 12); VNum (Int 3)]; [VNum (Int 1); VNum (Int 23)]] fresh
  = Some ([Return (VNum (Int 15)); Return (VNum (Int 24))],
          State {[ "12---3" := VNum (Int 15); "1---23" := VNum (Int 24) ]} []
                [[VNum (Int 12); VNum (Int 3)];
                 [VNum (Int 1); VNum (Int 23)]]).
Proof. vm_compute. reflexivity. Qed.

(** C4 as stated fails.  The delimiter occurs inside the serialization of
    the string [a---b]; and different argument lists derive one key: no
    argument and the one argument [undefined], and [NaN] and [null]. *)
Lemma delimiter_inside_and_collisions :
  (∃ before after,
     JSON.stringify (VStr "a---b") = Some (before +:+ delimiter +:+ after))
  ∧ ([VUndefined] ≠ [] ∧ deriveKey [VUndefined] = deriveKey [])
  ∧ ([VNum NaN] ≠ [VNull] ∧ deriveKey [VNum NaN] = deriveKey [VNull]).
Proof.
  split; [|by repeat split].
  exists (String JSON.dquote "a"), (String "b" (String JSON.dquote "")).
  reflexivity.
Qed.

(** *** [factorial] for every natural number

    The run of [factorial(n)] by induction on [n].  ([Int] is exact up to
    [2^53], that is up to [n = 18] here.) *)

Lemma memoized_miss (fn : underlying) (fuel : nat) (args : list value)
    (st : state) :
  isDefined (PlainObject.get (cache st) (deriveKey args)) = false →
  memoized fn (S fuel) args st =
  match fn (memoized fn fuel) args (recordInvocation args st) with
  | None => None
  | Some (Throw e, st') => Some (Throw e, st')
  | Some (Return result, st') =>
      Some (Return result, cacheSet (deriveKey args) result st')
  end.
Proof. intros H. simpl. by rewrite H. Qed.

Lemma strictEquals_succ_zero (n : nat) :
  strictEquals (VNum (Int (Z.of_nat (S n)))) (VNum (Int 0)) = false.
Proof.
  unfold strictEquals, equalNumbers.
  rewrite bool_decide_eq_false_2 by (intros [= H]; lia). done.
Qed.

Lemma subtract_succ_one (n : nat) :
  subtractNumbers (Int (Z.of_nat (S n))) (Int 1) = Int (Z.of_nat n).
Proof. unfold subtractNumbers. simpl negate. simpl addNumbers. f_equal. lia. Qed.

Lemma multiply_succ_fact (n : nat) :
  multiplyNumbers (Int (Z.of_nat (S n))) (Int (Z.of_nat (fact n)))
  = Int (Z.of_nat (fact (S n))).
Proof.
  pose proof (lt_O_fact n) as Hpos.
  unfold multiplyNumbers, integerOf.
  destruct (Z.eqb_spec (Z.of_nat (S n) * Z.of_nat (fact n)) 0) as [H0|_];
    [nia|].
  f_equal. change (fact (S n)) with (S n * fact n)%nat. lia.
Qed.

Section FactorialRun.

Variable StringToNumber : string → number.
Variable sourceText : string → string.

(** From a cache without defined values under the keys of [0] to [n], the
    call [factorial(n)] returns [n!] with fuel [n + 1] or more, invokes the
    wrapped function for [n] down to [0] and stores their factorials. *)
Lemma factorial_computes (n fuel : nat) (st : state) :
  (∀ i, (i ≤ n)%nat →
        isDefined (PlainObject.get (cache st) (deriveKey (numberArg i)))
        = false) →
  factorial StringToNumber sourceText (S n + fuel) (numberArg n) st =
  Some (Return (VNum (Int (Z.of_nat (fact n)))),
        State (factorialCache n (cache st)) (console st)
              (invoked st ++ countdown n)).
Proof.
  revert st. induction n as [|n IH]; intros st Hmiss.
  - unfold factorial. simpl plus.
    rewrite memoized_miss by (apply Hmiss; lia). reflexivity.
  - unfold factorial.
    change (S (S n) + fuel)%nat with (S (S n + fuel)).
    rewrite memoized_miss by (apply Hmiss; lia).
    unfold factorialFn at 1. unfold parameter, numberArg. simpl nth.
    rewrite strictEquals_succ_zero. simpl ToNumber. rewrite subtract_succ_one.
    fold (numberArg n). fold (factorial StringToNumber sourceText).
    rewrite IH by (intros i Hi; apply Hmiss; lia).
    simpl ToNumber. rewrite multiply_succ_fact.
    unfold cacheSet, PlainObject.set, recordInvocation. simpl.
    by rewrite <- app_assoc.
Qed.

Lemma factorialCache_lookup (n m : nat) (c : gmap string value) :
  (m ≤ n)%nat →
  factorialCache n c !! deriveKey (numberArg m)
  = Some (VNum (Int (Z.of_nat (fact m)))).
Proof.
  intros Hle. induction n as [|n IH].
  - assert (m = 0)%nat as -> by lia. simpl. by rewrite lookup_insert_eq.
  - destruct (decide (m = S n)) as [->|Hne].
    + simpl factorialCache. by rewrite lookup_insert_eq.
    + simpl factorialCache. rewrite lookup_insert_ne; [apply IH; lia|].
      intros Hkey. apply deriveKey_inj in Hkey; [|by repeat constructor..].
      injection Hkey as Hkey. lia.
Qed.

(** After [factorial(n)] on a new wrapped function, [factorial(m)] for
    [m] up to [n] returns [m!] from the cache: it invokes nothing and
    leaves the cache as it is. *)
Lemma factorial_then_smaller (n m fuel fuel' : nat) :
  (m ≤ n)%nat →
  ∃ st,
    factorial StringToNumber sourceText (S n + fuel) (numberArg n) fresh
      = Some (Return (VNum (Int (Z.of_nat (fact n)))), st)
    ∧ cache st = factorialCache n ∅
    ∧ invoked st = countdown n
    ∧ factorial StringToNumber sourceText (S fuel') (numberArg m) st
      = Some (Return (VNum (Int (Z.of_nat (fact m)))),
              State (cache st) ["from cache"] (invoked st)).
Proof.
  intros Hle. eexists. split.
  { apply factorial_computes. intros i _. apply fresh_miss. }
  do 2 (split; [done|]).
  unfold factorial. rewrite memoized_hit.
  - rewrite get_deriveKey. simpl cache.
    by rewrite factorialCache_lookup.
  - rewrite get_deriveKey. simpl cache.
    by rewrite factorialCache_lookup.
Qed.

End FactorialRun.

(** * Further properties *)

(** ** The wrapper on any arguments *)

(** X1.  No derived key names a property that the cache object inherits,
    so the first call of a new wrapped function never finds anything: it
    invokes the function, whatever the arguments are, and takes nothing
    from the cache. *)
Theorem first_call_invokes_fn (f : list value → outcome) (fuel : nat)
    (args : list value) :
  PlainObject.inherited (deriveKey args) = VUndefined
  ∧ ∃ st, memoized (pure f) (S fuel) args fresh = Some (f args, st)
          ∧ invoked st = [args]
          ∧ console st = [].
Proof.
  split; [apply keyStart_not_inherited, deriveKey_start|].
  destruct (f args) as [r|e] eqn:Hf; eexists.
  - split; [apply memoized_miss_return; [apply fresh_miss | exact Hf]|done].
  - split; [apply memoized_miss_throw; [apply fresh_miss | exact Hf]|done].
Qed.

(** X2.  Two argument lists that are not empty derive the same key exactly
    when [JSON.stringify] gives the same for them argument by argument:
    the delimiter neither merges two arguments nor splits one. *)
Theorem same_key_same_serializations (a b : list value) :
  a ≠ [] → b ≠ [] →
  deriveKey a = deriveKey b ↔ map JSON.stringify a = map JSON.stringify b.
Proof.
  intros Ha Hb. split; [by apply deriveKey_serializations|].
  unfold deriveKey. by intros ->.
Qed.

Lemma same_key_same_serializations_witness :
  deriveKey [VStr "1---2"; VNum NaN] = deriveKey [VStr "1"; VNum (Int 2)]
  ↔ map JSON.stringify [VStr "1---2"; VNum NaN]
    = map JSON.stringify [VStr "1"; VNum (Int 2)].
Proof.
  apply (same_key_same_serializations
           [VStr "1---2"; VNum NaN] [VStr "1"; VNum (Int 2)]); done.
Defined.

Lemma memoized_accounting (f : list value → outcome) (fuel : nat)
    (args : list value) (st : state) :
  ∃ o st',
    memoized (pure f) (S fuel) args st = Some (o, st')
    ∧ length (invoked st') + length (console st')
      = S (length (invoked st) + length (console st))
    ∧ (size (cache st') ≤ S (size (cache st)))%nat
    ∧ (∀ k, is_Some (cache st' !! k) →
            is_Some (cache st !! k) ∨ k = deriveKey args)
    ∧ (∀ a, a ∈ invoked st' → a ∈ invoked st ∨ a = args).
Proof.
  destruct (isDefined (PlainObject.get (cache st) (deriveKey args))) eqn:Hd.
  - do 2 eexists. split; [by apply memoized_hit|]. simpl.
    rewrite length_app. simpl. repeat split; [lia | lia | by left | by left].
  - assert (Hinv : ∀ a, a ∈ invoked st ++ [args] → a ∈ invoked st ∨ a = args).
    { intros a Ha. apply elem_of_app in Ha as [?|Ha]; [by left|right].
      by apply list_elem_of_singleton in Ha. }
    destruct (f args) as [r|e] eqn:Hf.
    + do 2 eexists. split; [by apply memoized_miss_return|]. simpl.
      unfold PlainObject.set. rewrite length_app, map_size_insert. simpl.
      repeat split; [lia | by destruct (cache st !! deriveKey args); simpl; lia
                     | | done].
      intros k Hk. destruct (decide (deriveKey args = k)) as [<-|Hne];
        [by right | left; by rewrite lookup_insert_ne in Hk].
    + do 2 eexists. split; [by apply memoized_miss_throw|]. simpl.
      rewrite length_app. simpl. repeat split; [lia | lia | by left | done].
Qed.

Lemma callEach_accounting (f : list value → outcome) (fuel : nat)
    (calls : list (list value)) (st : state) :
  ∃ os st',
    callEach (pure f) (S fuel) calls st = Some (os, st')
    ∧ length os = length calls
    ∧ length (invoked st') + length (console st')
      = length (invoked st) + length (console st) + length calls
    ∧ (size (cache st') ≤ size (cache st) + length calls)%nat
    ∧ (∀ k, is_Some (cache st' !! k) →
            is_Some (cache st !! k) ∨ ∃ a, a ∈ calls ∧ deriveKey a = k)
    ∧ (∀ a, a ∈ invoked st' → a ∈ invoked st ∨ a ∈ calls).
Proof.
  revert st. induction calls as [|args calls IH]; intros st.
  - exists [], st. simpl. repeat split; [lia | lia | by left | by left].
  - destruct (memoized_accounting f fuel args st)
      as (o & st1 & Hrun1 & Hlen1 & Hsize1 & Hkeys1 & Hinv1).
    destruct (IH st1) as (os & st2 & Hrun2 & Hos & Hlen2 & Hsize2 & Hkeys2 & Hinv2).
    exists (o :: os), st2.
    split; [by apply (callEach_cons _ _ _ _ _ st1)|]. simpl.
    split; [by rewrite Hos|]. split; [lia|]. split; [lia|]. split.
    + intros k Hk. destruct (Hkeys2 k Hk) as [Hk1|(a & Ha & Hka)].
      * destruct (Hkeys1 k Hk1) as [?| ->]; [by left|].
        right. exists args. split; [constructor | done].
      * right. exists a. split; [by constructor | done].
    + intros a Ha. destruct (Hinv2 a Ha) as [Ha1|Ha2].
      * destruct (Hinv1 a Ha1) as [?| ->]; [by left | right; constructor].
      * right. by constructor.
Qed.

(** X3.  On a new wrapped pure function every call of a sequence has an
    outcome, and it either invokes the function once or writes the line
    [from cache] once: invocations and lines add up to the number of calls.
    The function is invoked only with argument lists of the calls, and the
    cache holds only keys of the calls, at most one entry per call. *)
Theorem every_call_invokes_or_hits (f : list value → outcome) (fuel : nat)
    (calls : list (list value)) :
  ∃ os st',
    callEach (pure f) (S fuel) calls fresh = Some (os, st')
    ∧ length os = length calls
    ∧ length (invoked st') + length (console st') = length calls
    ∧ (size (cache st') ≤ length calls)%nat
    ∧ (∀ k, is_Some (cache st' !! k) → ∃ a, a ∈ calls ∧ deriveKey a = k)
    ∧ (∀ a, a ∈ invoked st' → a ∈ calls).
Proof.
  destruct (callEach_accounting f fuel calls fresh)
    as (os & st' & Hrun & Hos & Hlen & Hsize & Hkeys & Hinv).
  exists os, st'. split; [done|]. split; [done|].
  simpl in Hlen, Hsize. rewrite map_size_empty in Hsize.
  split; [lia|]. split; [lia|]. split.
  - intros k Hk. destruct (Hkeys k Hk) as [Hk0|?]; [|done].
    simpl in Hk0. rewrite lookup_empty in Hk0. by destruct Hk0.
  - intros a Ha. destruct (Hinv a Ha) as [Ha0|?]; [|done].
    simpl in Ha0. by apply elem_of_nil in Ha0.
Qed.

(** ** [memoizedAdd] *)

(** X4.  For two different safe integers [x] and [y] whose sum is a safe
    integer, [memoizedAdd(x, y)] and then [memoizedAdd(y, x)] both invoke
    [add]: the keys of the two argument orders differ, although the sums
    are the same.  Both sums are stored, each under its key. *)
Theorem memoizedAdd_swapped_arguments (StringToNumber : string → number)
    (sourceText : string → string) (fuel : nat) (x y : Z) :
  x ≠ y →
  isSafeInteger x = true →
  isSafeInteger y = true →
  isSafeInteger (x + y) = true →
  let xy := [VNum (Int x); VNum (Int y)] in
  let yx := [VNum (Int y); VNum (Int x)] in
  deriveKey xy ≠ deriveKey yx
  ∧ callEach (pure (add StringToNumber sourceText)) (S fuel) [xy; yx] fresh
    = Some ([Return (VNum (Int (x + y))); Return (VNum (Int (x + y)))],
            State (<[deriveKey yx := VNum (Int (x + y))]>
                     {[deriveKey xy := VNum (Int (x + y))]})
                  [] [xy; yx]).
Proof.
  intros Hne _ _ _ xy yx.
  assert (Hkey : deriveKey xy ≠ deriveKey yx).
  { intros Hkey. apply deriveKey_inj in Hkey; [|by repeat constructor..].
    injection Hkey as Hx _. done. }
  split; [done|].
  set (sum := VNum (Int (x + y))).
  set (st1 := cacheSet (deriveKey xy) sum (recordInvocation xy fresh)).
  set (st2 := cacheSet (deriveKey yx) sum (recordInvocation yx st1)).
  assert (H1 : memoized (pure (add StringToNumber sourceText)) (S fuel) xy fresh
               = Some (Return sum, st1)).
  { apply memoized_miss_return; [apply fresh_miss | reflexivity]. }
  assert (H2 : memoized (pure (add StringToNumber sourceText)) (S fuel) yx st1
               = Some (Return sum, st2)).
  { apply memoized_miss_return.
    - rewrite get_deriveKey. simpl. unfold PlainObject.set.
      by rewrite lookup_insert_ne, lookup_empty.
    - unfold add, plus, sum. simpl. by rewrite Z.add_comm. }
  rewrite (callEach_cons _ _ _ _ _ st1 st2 _ [Return sum] H1);
    [|by rewrite (callEach_cons _ _ _ _ _ st2 st2 _ [] H2)].
  unfold st2, st1, cacheSet, recordInvocation, PlainObject.set. simpl.
  by rewrite insert_empty.
Qed.

Lemma memoizedAdd_swapped_arguments_witness :
  let xy := [VNum (Int 2); VNum (Int 34)] in
  let yx := [VNum (Int 34); VNum (Int 2)] in
  deriveKey xy ≠ deriveKey yx
  ∧ callEach (pure (add noStringToNumber noSourceText)) 1 [xy; yx] fresh
    = Some ([Return (VNum (Int 36)); Return (VNum (Int 36))],
            State (<[deriveKey yx := VNum (Int 36)]>
                     {[deriveKey xy := VNum (Int 36)]})
                  [] [xy; yx]).
Proof.
  apply (memoizedAdd_swapped_arguments noStringToNumber noSourceText 0 2 34);
    [lia | reflexivity..].
Defined.

(** ** [factorial] *)

Lemma factorialCache_lookup_above (n j : nat) :
  (n < j)%nat → factorialCache n ∅ !! deriveKey (numberArg j) = None.
Proof.
  intros Hlt.
  assert (Hkey : ∀ i, (i ≤ n)%nat →
                      deriveKey (numberArg i) ≠ deriveKey (numberArg j)).
  { intros i Hi Hkey. apply deriveKey_inj in Hkey; [|by repeat constructor..].
    injection Hkey as Hkey. lia. }
  induction n as [|n IH]; simpl factorialCache.
  - rewrite lookup_insert_ne by (apply Hkey; lia). apply lookup_empty.
  - rewrite lookup_insert_ne by (apply Hkey; lia).
    apply IH; [lia|]. intros i Hi. apply Hkey. lia.
Qed.

Lemma factorialCache_keys (n : nat) (k : string) :
  is_Some (factorialCache n ∅ !! k) ↔
  ∃ i, (i ≤ n)%nat ∧ k = deriveKey (numberArg i).
Proof.
  induction n as [|n IH]; simpl factorialCache.
  - destruct (decide (deriveKey (numberArg 0) = k)) as [<-|Hne].
    + rewrite lookup_insert_eq. split; [exists 0%nat; by split | by eexists].
    + rewrite lookup_insert_ne, lookup_empty by done. split.
      * by intros [? ?].
      * intros (i & Hi & ->). assert (i = 0)%nat as -> by lia. done.
  - destruct (decide (deriveKey (numberArg (S n)) = k)) as [<-|Hne].
    + rewrite lookup_insert_eq. split; [exists (S n); by split | by eexists].
    + rewrite lookup_insert_ne by done. rewrite IH. split.
      * intros (i & Hi & ->). exists i. split; [lia | done].
      * intros (i & Hi & ->). exists i. split; [|done].
        destruct (decide (i = S n)) as [->|?]; [done | lia].
Qed.

Section FactorialMore.

Variable StringToNumber : string → number.
Variable sourceText : string → string.

Lemma factorial_resumes (m k fuel : nat) (st : state) :
  cache st = factorialCache m ∅ →
  factorial StringToNumber sourceText (S k + fuel) (numberArg (m + k)) st =
  Some (Return (VNum (Int (Z.of_nat (fact (m + k))))),
        State (factorialCache (m + k) ∅) (console st ++ ["from cache"])
              (invoked st ++ climb m k)).
Proof.
  revert st. induction k as [|k IH]; intros st Hcache.
  - rewrite Nat.add_0_r. unfold factorial. simpl plus.
    assert (Hget : PlainObject.get (cache st) (deriveKey (numberArg m))
                   = VNum (Int (Z.of_nat (fact m)))).
    { by rewrite get_deriveKey, Hcache, factorialCache_lookup. }
    rewrite memoized_hit by (by rewrite Hget).
    rewrite Hget. unfold consoleLog. simpl. by rewrite app_nil_r, Hcache.
  - rewrite Nat.add_succ_r. unfold factorial.
    change (S (S k) + fuel)%nat with (S (S k + fuel)).
    rewrite memoized_miss
      by (rewrite get_deriveKey, Hcache, factorialCache_lookup_above by lia;
          done).
    unfold factorialFn at 1. unfold parameter, numberArg. simpl nth.
    rewrite strictEquals_succ_zero. simpl ToNumber. rewrite subtract_succ_one.
    fold (numberArg (m + k)). fold (factorial StringToNumber sourceText).
    rewrite IH by done.
    simpl ToNumber. rewrite multiply_succ_fact.
    unfold cacheSet, PlainObject.set, recordInvocation. simpl.
    rewrite <- app_assoc. simpl. by rewrite Nat.add_succ_r.
Qed.

(** X5.  On a new [factorial], [factorial(n)] for a natural number [n]
    whose factorial is a safe integer (that is up to [n = 18]) returns
    [n!] with fuel [n + 1] or more.  It invokes the wrapped function for
    [n], [n - 1], ..., [0], takes nothing from the cache, and leaves the
    cache with an entry under the key of each of [0] to [n] and under no
    other key. *)
Theorem factorial_returns_factorial (n fuel : nat) :
  isSafeInteger (Z.of_nat (fact n)) = true →
  factorial StringToNumber sourceText (S n + fuel) (numberArg n) fresh
  = Some (Return (VNum (Int (Z.of_nat (fact n)))),
          State (factorialCache n ∅) [] (countdown n))
  ∧ (∀ i, (i ≤ n)%nat →
          factorialCache n ∅ !! deriveKey (numberArg i)
          = Some (VNum (Int (Z.of_nat (fact i)))))
  ∧ (∀ k, is_Some (factorialCache n ∅ !! k) →
          ∃ i, (i ≤ n)%nat ∧ k = deriveKey (numberArg i)).
Proof.
  intros _. split; [|split].
  - apply factorial_computes. intros i _. apply fresh_miss.
  - intros i Hi. by apply factorialCache_lookup.
  - intros k Hk. by apply factorialCache_keys.
Qed.

(** X6.  After [factorial(n)] on a new [factorial], for [n] whose
    factorial is a safe integer, [factorial(m)] for any [m] from [0] to
    [n] returns [m!] from the cache, with any fuel but none: it writes the
    line, invokes nothing and leaves the cache as it is. *)
Theorem factorial_of_smaller_from_cache (n m fuel fuel' : nat) :
  (m ≤ n)%nat →
  isSafeInteger (Z.of_nat (fact n)) = true →
  ∃ st,
    factorial StringToNumber sourceText (S n + fuel) (numberArg n) fresh
      = Some (Return (VNum (Int (Z.of_nat (fact n)))), st)
    ∧ factorial StringToNumber sourceText (S fuel') (numberArg m) st
      = Some (Return (VNum (Int (Z.of_nat (fact m)))),
              State (cache st) ["from cache"] (invoked st)).
Proof.
  intros Hle _.
  destruct (factorial_then_smaller StringToNumber sourceText n m fuel fuel' Hle)
    as (st & Hrun & _ & _ & Hhit).
  by exists st.
Qed.

(** X7.  After [factorial(m)] on a new [factorial], [factorial(m + k)],
    for [m + k] whose factorial is a safe integer, returns [(m + k)!] and
    invokes the wrapped function only for [m + k] down to [m + 1]: the
    recursion stops at the cached [factorial(m)], which writes the one
    line.  The cache then is the one that [factorial(m + k)] alone would
    have left. *)
Theorem factorial_of_larger_resumes (m k fuel fuel' : nat) :
  isSafeInteger (Z.of_nat (fact (m + k))) = true →
  ∃ st,
    factorial StringToNumber sourceText (S m + fuel) (numberArg m) fresh
      = Some (Return (VNum (Int (Z.of_nat (fact m)))), st)
    ∧ factorial StringToNumber sourceText (S k + fuel') (numberArg (m + k)) st
      = Some (Return (VNum (Int (Z.of_nat (fact (m + k))))),
              State (factorialCache (m + k) ∅) ["from cache"]
                    (countdown m ++ climb m k)).
Proof.
  intros _. eexists. split.
  { apply factorial_computes. intros i _. apply fresh_miss. }
  by rewrite factorial_resumes.
Qed.

Lemma factorial_descends (fuel : nat) (z : Z) (st : state) :
  (z < 0)%Z →
  (∀ z', (z' ≤ z)%Z →
         isDefined (PlainObject.get (cache st) (deriveKey [VNum (Int z')]))
         = false) →
  factorial StringToNumber sourceText fuel [VNum (Int z)] st = None.
Proof.
  revert z st. induction fuel as [|fuel IH]; intros z st Hneg Hmiss; [done|].
  unfold factorial. rewrite memoized_miss by (apply Hmiss; lia).
  unfold factorialFn at 1. unfold parameter. simpl nth.
  assert (Hnz : strictEquals (VNum (Int z)) (VNum (Int 0)) = false).
  { unfold strictEquals, equalNumbers.
    rewrite bool_decide_eq_false_2 by (intros [= H]; lia). by destruct z. }
  rewrite Hnz. simpl ToNumber.
  assert (Hsub : subtractNumbers (Int z) (Int 1) = Int (z - 1)) by done.
  rewrite Hsub. fold (factorial StringToNumber sourceText).
  rewrite IH; [done | lia |].
  intros z' Hz'. apply Hmiss. lia.
Qed.

(** X8.  [factorial] of a negative integer has no result: on a new
    [factorial] the recursion goes from [z] to [z - 1] and on, never
    meeting [0], so whatever the fuel, it is spent before any call
    returns. *)
Theorem factorial_of_negative_never_returns (fuel : nat) (z : Z) :
  (z < 0)%Z →
  factorial StringToNumber sourceText fuel [VNum (Int z)] fresh = None.
Proof.
  intros Hneg. apply factorial_descends; [done|].
  intros z' _. apply fresh_miss.
Qed.

End FactorialMore.

Lemma factorial_returns_factorial_witness :
  factorial noStringToNumber noSourceText 5 (numberArg 4) fresh
  = Some (Return (VNum (Int 24)),
          State (factorialCache 4 ∅) [] (countdown 4))
  ∧ (∀ i, (i ≤ 4)%nat →
          factorialCache 4 ∅ !! deriveKey (numberArg i)
          = Some (VNum (Int (Z.of_nat (fact i)))))
  ∧ (∀ k, is_Some (factorialCache 4 ∅ !! k) →
          ∃ i, (i ≤ 4)%nat ∧ k = deriveKey (numberArg i)).
Proof.
  apply (factorial_returns_factorial noStringToNumber noSourceText 4 0).
  reflexivity.
Defined.

Lemma factorial_of_larger_resumes_witness :
  ∃ st,
    factorial noStringToNumber noSourceText 3 (numberArg 2) fresh
      = Some (Return (VNum (Int 2)), st)
    ∧ factorial noStringToNumber noSourceText 4 (numberArg 5) st
      = Some (Return (VNum (Int 120)),
              State (factorialCache 5 ∅) ["from cache"]
                    (countdown 2 ++ climb 2 3)).
Proof.
  apply (factorial_of_larger_resumes noStringToNumber noSourceText 2 3 0 0).
  reflexivity.
Defined.

Lemma factorial_of_smaller_from_cache_witness :
  ∃ st,
    factorial noStringToNumber noSourceText 7 (numberArg 6) fresh
      = Some (Return (VNum (Int 720)), st)
    ∧ factorial noStringToNumber noSourceText 1 (numberArg 4) st
      = Some (Return (VNum (Int 24)),
              State (cache st) ["from cache"] (invoked st)).
Proof.
  apply (factorial_of_smaller_from_cache noStringToNumber noSourceText
           6 4 0 0); [lia | reflexivity].
Defined.

Lemma factorial_of_negative_never_returns_witness :
  factorial noStringToNumber noSourceText 50 [VNum (Int (-1))] fresh = None.
Proof.
  apply (factorial_of_negative_never_returns noStringToNumber noSourceText
           50 (-1)).
  lia.
Defined.

(** ** Two wrapped functions *)

Lemma call_miss_return (m : instance) (f : list value → outcome)
    (fuel : nat) (a : list value) (v : value) (w : world)
    (own : gmap string value) :
  fnOf m = pure f →
  heap w !! cacheOf m = Some own →
  isDefined (PlainObject.get own (deriveKey a)) = false →
  f a = Return v →
  call m (S fuel) a w =
  Some (Return v,
        World (<[cacheOf m := <[deriveKey a := v]> own]> (heap w))
              (output w) (trace w ++ [a])).
Proof.
  intros Hfn Hown Hmiss Hf. unfold call. rewrite Hown, Hfn.
  by rewrite (memoized_miss_return f _ _ _ v).
Qed.

Lemma call_hit (m : instance) (fuel : nat) (a : list value) (w : world)
    (own : gmap string value) :
  heap w !! cacheOf m = Some own →
  isDefined (PlainObject.get own (deriveKey a)) = true →
  call m (S fuel) a w =
  Some (Return (PlainObject.get own (deriveKey a)),
        World (heap w) (output w ++ ["from cache"]) (trace w)).
Proof.
  intros Hown Hhit. unfold call. rewrite Hown.
  rewrite memoized_hit by done. simpl. by rewrite list_insert_id.
Qed.

(** X9.  Two wrapped functions made from the same pure function compute
    separately.  When the function returns a value other than [undefined]
    for the arguments [a], the first call of each wrapped function with [a]
    invokes the function, and only a further call of one of them takes the
    value from its cache. *)
Theorem two_wrappers_compute_separately (f : list value → outcome)
    (fuel : nat) (a : list value) (v : value) (w : world) :
  f a = Return v →
  isDefined v = true →
  let m1 := (memoize (pure f) None w).1 in
  let w1 := (memoize (pure f) None w).2 in
  let m2 := (memoize (pure f) None w1).1 in
  let w2 := (memoize (pure f) None w1).2 in
  ∃ w3 w4 w5,
    call m1 (S fuel) a w2 = Some (Return v, w3)
    ∧ trace w3 = trace w ++ [a] ∧ output w3 = output w
    ∧ call m2 (S fuel) a w3 = Some (Return v, w4)
    ∧ trace w4 = trace w ++ [a; a] ∧ output w4 = output w
    ∧ call m1 (S fuel) a w4 = Some (Return v, w5)
    ∧ trace w5 = trace w ++ [a; a] ∧ output w5 = output w ++ ["from cache"].
Proof.
  intros Hf Hv m1 w1 m2 w2.
  set (n := length (heap w)).
  assert (Hm1 : cacheOf m1 = n) by done.
  assert (Hm2 : cacheOf m2 = S n).
  { unfold m2, w1, memoize. simpl. rewrite length_app. simpl. lia. }
  assert (Hheap : heap w2 = heap w ++ [∅; ∅]).
  { unfold w2, w1, memoize. simpl. by rewrite <- app_assoc. }
  assert (Hfn1 : fnOf m1 = pure f) by done.
  assert (Hfn2 : fnOf m2 = pure f) by done.
  assert (Hout : output w2 = output w) by done.
  assert (Htrace : trace w2 = trace w) by done.
  clearbody m1 m2 w2. clear w1.
  assert (Hempty : isDefined (PlainObject.get ∅ (deriveKey a)) = false).
  { rewrite get_deriveKey. by rewrite lookup_empty. }
  set (entry := <[deriveKey a := v]> (∅ : gmap string value)).
  assert (Hentry : PlainObject.get entry (deriveKey a) = v).
  { rewrite get_deriveKey. unfold entry. by rewrite lookup_insert_eq. }
  assert (Hlook1 : heap w2 !! cacheOf m1 = Some ∅).
  { rewrite Hm1, Hheap. by apply list_lookup_middle. }
  pose proof (call_miss_return m1 f fuel a v w2 ∅ Hfn1 Hlook1 Hempty Hf)
    as Hcall1.
  set (w3 := World (<[cacheOf m1 := entry]> (heap w2)) (output w2)
                   (trace w2 ++ [a])) in *.
  assert (Hlook2 : heap w3 !! cacheOf m2 = Some ∅).
  { simpl. rewrite Hm1, Hm2, Hheap.
    rewrite list_lookup_insert_ne by lia.
    change (heap w ++ [∅; ∅]) with (heap w ++ [∅] ++ [∅]).
    rewrite app_assoc. apply list_lookup_middle.
    rewrite length_app. simpl. lia. }
  pose proof (call_miss_return m2 f fuel a v w3 ∅ Hfn2 Hlook2 Hempty Hf)
    as Hcall2.
  set (w4 := World (<[cacheOf m2 := entry]> (heap w3)) (output w3)
                   (trace w3 ++ [a])) in *.
  assert (Hlook3 : heap w4 !! cacheOf m1 = Some entry).
  { simpl. rewrite Hm1, Hm2, Hheap.
    rewrite list_lookup_insert_ne by lia.
    apply list_lookup_insert_eq. rewrite length_app. simpl. lia. }
  assert (Hhit : isDefined (PlainObject.get entry (deriveKey a)) = true)
    by (by rewrite Hentry).
  pose proof (call_hit m1 fuel a w4 entry Hlook3 Hhit) as Hcall3.
  rewrite Hentry in Hcall3.
  exists w3, w4, (World (heap w4) (output w4 ++ ["from cache"]) (trace w4)).
  split; [done|]. split; [simpl; by rewrite Htrace|].
  split; [simpl; by rewrite Hout|]. split; [done|].
  split; [simpl; by rewrite Htrace, <- app_assoc|].
  split; [simpl; by rewrite Hout|]. split; [done|].
  split; [simpl; by rewrite Htrace, <- app_assoc|].
  simpl. by rewrite Hout.
Qed.

Lemma two_wrappers_compute_separately_witness :
  let m1 := (memoize (pure countArguments) None emptyWorld).1 in
  let w1 := (memoize (pure countArguments) None emptyWorld).2 in
  let m2 := (memoize (pure countArguments) None w1).1 in
  let w2 := (memoize (pure countArguments) None w1).2 in
  ∃ w3 w4 w5,
    call m1 1 [VNull] w2 = Some (Return (VNum (Int 1)), w3)
    ∧ trace w3 = trace emptyWorld ++ [[VNull]] ∧ output w3 = output emptyWorld
    ∧ call m2 1 [VNull] w3 = Some (Return (VNum (Int 1)), w4)
    ∧ trace w4 = trace emptyWorld ++ [[VNull]; [VNull]]
    ∧ output w4 = output emptyWorld
    ∧ call m1 1 [VNull] w4 = Some (Return (VNum (Int 1)), w5)
    ∧ trace w5 = trace emptyWorld ++ [[VNull]; [VNull]]
    ∧ output w5 = output emptyWorld ++ ["from cache"].
Proof.
  apply (two_wrappers_compute_separately countArguments 0 [VNull]
           (VNum (Int 1)) emptyWorld); reflexivity.
Defined.

(** ** [createCounter] *)

Lemma invokeEach_Int (ms : list Counter.method) (z : Z) :
  Counter.invokeEach ms (Int z)
  = Int (z + Z.of_nat (count_occ Counter.method_eq_dec ms Counter.Increment)
           - Z.of_nat (count_occ Counter.method_eq_dec ms Counter.Decrement)).
Proof.
  revert z. induction ms as [|m ms IH]; intros z.
  - simpl. f_equal. lia.
  - unfold Counter.invokeEach. simpl fold_left.
    fold (Counter.invokeEach ms).
    destruct m.
    + change (Counter.invoke Counter.Increment (Int z)).2 with (Int (z + 1)).
      rewrite IH. f_equal. cbn [count_occ].
      destruct (Counter.method_eq_dec Counter.Increment Counter.Increment);
        [|done].
      destruct (Counter.method_eq_dec Counter.Increment Counter.Decrement);
        [done|]. lia.
    + change (Counter.invoke Counter.Decrement (Int z)).2 with (Int (z + -1)).
      rewrite IH. f_equal. cbn [count_occ].
      destruct (Counter.method_eq_dec Counter.Decrement Counter.Increment);
        [done|].
      destruct (Counter.method_eq_dec Counter.Decrement Counter.Decrement);
        [|done]. lia.
Qed.

(** X10.  What [state()] of a counter shows after any calls of
    [increment] and [decrement] on a new counter is the number of the
    calls of [increment] less the number of the calls of [decrement], in
    whatever order they came. *)
Theorem counter_state_counts_calls (ms : list Counter.method) :
  Counter.state (Counter.invokeEach ms Counter.createCounter)
  = VNum (Int (Z.of_nat (count_occ Counter.method_eq_dec ms Counter.Increment)
               - Z.of_nat (count_occ Counter.method_eq_dec ms Counter.Decrement))).
Proof.
  unfold Counter.createCounter, Counter.state. rewrite invokeEach_Int.
  do 2 f_equal.
Qed.

(** ** [createQueue] *)

Lemma enqueueEach_app (xs queue : list value) :
  Queue.enqueueEach xs queue = queue ++ xs.
Proof.
  revert queue. induction xs as [|x xs IH]; intros queue.
  - by rewrite app_nil_r.
  - unfold Queue.enqueueEach. simpl fold_left. fold (Queue.enqueueEach xs).
    rewrite IH. simpl. by rewrite <- app_assoc.
Qed.

Lemma dequeueTimes_spec (n : nat) (queue : list value) :
  Queue.dequeueTimes n queue
  = (take n queue ++ replicate (n - List.length queue) VUndefined,
     drop n queue).
Proof.
  revert queue. induction n as [|n IH]; intros queue.
  - simpl. by rewrite drop_0.
  - simpl Queue.dequeueTimes. destruct queue as [|x queue].
    + simpl Queue.dequeue. cbv iota beta. rewrite IH.
      rewrite !take_nil, !drop_nil. simpl. by rewrite Nat.sub_0_r.
    + simpl Queue.dequeue. cbv iota beta. by rewrite IH.
Qed.

(** X11.  A queue gives back what was put in, in the order it was put in:
    after [enqueue] of each of [xs] on a new queue, [n] calls of [dequeue]
    return the first [n] of [xs] in order and leave the rest; calls beyond
    the last element return [undefined] and leave the queue empty. *)
Theorem queue_is_first_in_first_out (xs : list value) (n : nat) :
  Queue.dequeueTimes n (Queue.enqueueEach xs Queue.createQueue)
  = (take n xs ++ replicate (n - List.length xs) VUndefined, drop n xs).
Proof. by rewrite enqueueEach_app, dequeueTimes_spec. Qed.

(** X12.  [peek] shows the other end than [dequeue] takes from: after
    [enqueue] of [x] and then each of [xs] on a new queue, [peek()] is the
    element put in last, the length is the number of elements put in, and
    [dequeue()] still returns [x], the element put in first. *)
Theorem queue_peek_is_newest (x : value) (xs : list value) :
  let queue := Queue.enqueueEach (x :: xs) Queue.createQueue in
  Queue.peek queue = default x (last xs)
  ∧ Queue.length queue = VNum (Int (Z.of_nat (S (List.length xs))))
  ∧ Queue.isEmpty queue = false
  ∧ Queue.dequeue queue = (x, xs).
Proof.
  intros queue. unfold queue. rewrite enqueueEach_app. simpl app.
  assert (Hnonempty : Queue.isEmpty (x :: xs) = false).
  { unfold Queue.isEmpty, strictEquals, equalNumbers.
    rewrite bool_decide_eq_false_2 by (intros [= H]; simpl in H; lia).
    done. }
  split; [|done].
  unfold Queue.peek. rewrite Hnonempty.
  replace (List.length (x :: xs) - 1)%nat
    with (Init.Nat.pred (List.length (x :: xs))) by (simpl; lia).
  rewrite <- last_lookup, last_cons. by destruct (last xs).
Qed.

(** ** The notes *)

Lemma findIndexFrom_none {A : Type} (test : A → bool) (l : list A) (i : Z) :
  Forall (λ x, test x = false) l → Notes.findIndexFrom test l i = (-1)%Z.
Proof.
  intros Hl. revert i. induction Hl as [|x l Hx Hl IH]; intros i; [done|].
  simpl. by rewrite Hx.
Qed.

Lemma findIndexFrom_first {A : Type} (test : A → bool) (before after : list A)
    (x : A) (i : Z) :
  Forall (λ y, test y = false) before →
  test x = true →
  Notes.findIndexFrom test (before ++ x :: after) i
  = (i + Z.of_nat (length before))%Z.
Proof.
  intros Hbefore Hx. revert i.
  induction Hbefore as [|y before Hy Hbefore IH]; intros i.
  - simpl. rewrite Hx. lia.
  - simpl. rewrite Hy, IH. lia.
Qed.

(** An array either has no element that satisfies the test, or splits at
    the first one that does. *)
Lemma first_match {A : Type} (test : A → bool) (l : list A) :
  Forall (λ x, test x = false) l
  ∨ ∃ before x after,
      l = before ++ x :: after
      ∧ Forall (λ y, test y = false) before
      ∧ test x = true.
Proof.
  induction l as [|x l IH]; [by left|].
  destruct (test x) eqn:Hx.
  - right. exists [], x, l. by repeat split.
  - destruct IH as [Hnone|(before & y & after & -> & Hbefore & Hy)].
    + left. by constructor.
    + right. exists (x :: before), y, after. repeat split; [|done].
      by constructor.
Qed.

Lemma slice_before {A : Type} (before after : list A) (x : A) :
  Notes.slice 0 (Some (Z.of_nat (length before))) (before ++ x :: after)
  = before.
Proof.
  unfold Notes.slice, Notes.relativeIndex.
  destruct (Z.ltb_spec (Z.of_nat (length before)) 0) as [?|_]; [lia|].
  change (0 <? 0)%Z with false. cbv iota. change (Z.to_nat 0) with 0%nat.
  rewrite Nat.min_0_l, drop_0, Nat.sub_0_r, Nat2Z.id.
  rewrite Nat.min_l by (rewrite length_app; lia).
  by rewrite take_app_length.
Qed.

Lemma slice_after {A : Type} (before after : list A) (x : A) :
  Notes.slice (Z.of_nat (length before) + 1) None (before ++ x :: after)
  = after.
Proof.
  unfold Notes.slice, Notes.relativeIndex.
  destruct (Z.ltb_spec (Z.of_nat (length before) + 1) 0) as [?|_]; [lia|].
  rewrite length_app. simpl length.
  replace (Z.to_nat (Z.of_nat (length before) + 1)) with (S (length before))
    by lia.
  rewrite Nat.min_l by lia.
  change (before ++ x :: after) with (before ++ [x] ++ after).
  rewrite app_assoc.
  replace (S (length before)) with (length (before ++ [x]))
    by (rewrite length_app; simpl; lia).
  rewrite drop_app_length. apply take_ge. rewrite length_app. simpl. lia.
Qed.

Lemma deleteNote_first (id : value) (before after : list (gmap string value))
    (note : gmap string value) :
  Forall (λ n, strictEquals (Notes.idOf n) id = false) before →
  strictEquals (Notes.idOf note) id = true →
  Notes.deleteNote id (before ++ note :: after) = before ++ after.
Proof.
  intros Hbefore Hnote. unfold Notes.deleteNote, Notes.findIndex.
  rewrite (findIndexFrom_first _ before after note 0 Hbefore Hnote).
  rewrite Z.add_0_l.
  destruct (Z.ltb_spec (Z.of_nat (length before)) 0) as [?|_]; [lia|].
  by rewrite slice_before, slice_after.
Qed.

Lemma deleteNote_none (id : value) (notes : list (gmap string value)) :
  Forall (λ n, strictEquals (Notes.idOf n) id = false) notes →
  Notes.deleteNote id notes = notes.
Proof.
  intros Hnone. unfold Notes.deleteNote, Notes.findIndex.
  by rewrite findIndexFrom_none.
Qed.

(** X13.  [deleteNote] takes out the first note whose [id] is strictly
    equal to the given one and nothing else: the notes before and after it
    stay, in their order.  When no note has that [id], the notes are
    returned as they are. *)
Theorem deleteNote_removes_first_match (id : value)
    (notes : list (gmap string value)) :
  (Forall (λ n, strictEquals (Notes.idOf n) id = false) notes
   ∧ Notes.deleteNote id notes = notes)
  ∨ ∃ before note after,
      notes = before ++ note :: after
      ∧ Forall (λ n, strictEquals (Notes.idOf n) id = false) before
      ∧ strictEquals (Notes.idOf note) id = true
      ∧ Notes.deleteNote id notes = before ++ after.
Proof.
  destruct (first_match (λ n, strictEquals (Notes.idOf n) id) notes)
    as [Hnone|(before & note & after & -> & Hbefore & Hnote)].
  - left. split; [done | by apply deleteNote_none].
  - right. exists before, note, after. repeat split; try done.
    by apply deleteNote_first.
Qed.

(** X14.  Deleting what was just created gives the notes back: when no
    note has the [id] of [note], and that [id] is strictly equal to itself
    (it is not [NaN]), [deleteNote(note.id)] after [createNote(note)]
    leaves the notes as they were before both. *)
Theorem createNote_then_deleteNote (note : gmap string value)
    (notes : list (gmap string value)) :
  Forall (λ n, strictEquals (Notes.idOf n) (Notes.idOf note) = false) notes →
  strictEquals (Notes.idOf note) (Notes.idOf note) = true →
  Notes.deleteNote (Notes.idOf note) (Notes.createNote note notes) = notes.
Proof.
  intros Hnone Hid. unfold Notes.createNote.
  rewrite (deleteNote_first _ notes [] note Hnone Hid). apply app_nil_r.
Qed.

Lemma createNote_then_deleteNote_witness :
  Notes.deleteNote (Notes.idOf {["id" := VNum (Int 2); "text" := VStr "b"]})
    (Notes.createNote {["id" := VNum (Int 2); "text" := VStr "b"]}
       [{["id" := VNum (Int 1); "text" := VStr "a"]}])
  = [{["id" := VNum (Int 1); "text" := VStr "a"]}].
Proof.
  apply (createNote_then_deleteNote
           {["id" := VNum (Int 2); "text" := VStr "b"]}
           [{["id" := VNum (Int 1); "text" := VStr "a"]}]).
  - repeat constructor.
  - reflexivity.
Defined.

Lemma idOf_lookup (note : gmap string value) :
  Notes.idOf note = default VUndefined (note !! "id").
Proof. unfold Notes.idOf, PlainObject.get. by destruct (note !! "id"). Qed.

Lemma strictEquals_right_refl (a b : value) :
  strictEquals a b = true → strictEquals b b = true.
Proof.
  destruct a, b; try done; unfold strictEquals;
    try (intros _; by apply bool_decide_eq_true_2).
  unfold equalNumbers. destruct n, n0; try done;
    intros _; apply orb_true_intro; left; by apply bool_decide_eq_true_2.
Qed.

Lemma idOf_spread (note update : gmap string value) :
  strictEquals (Notes.idOf note) (Notes.idOf update) = true →
  strictEquals (Notes.idOf (Notes.spread note update)) (Notes.idOf update)
  = true.
Proof.
  intros Hmatch. rewrite !idOf_lookup in *. unfold Notes.spread.
  destruct (update !! "id") as [v|] eqn:Hid.
  - rewrite (lookup_union_Some_l update note "id" v Hid).
    by apply strictEquals_right_refl in Hmatch.
  - by rewrite (lookup_union_r update note "id" Hid).
Qed.

Lemma updateNote_first (update : gmap string value)
    (before after : list (gmap string value)) (note : gmap string value) :
  Forall (λ n, strictEquals (Notes.idOf n) (Notes.idOf update) = false)
         before →
  strictEquals (Notes.idOf note) (Notes.idOf update) = true →
  Notes.updateNote update (before ++ note :: after)
  = before ++ Notes.spread note update :: after.
Proof.
  intros Hbefore Hnote. unfold Notes.updateNote, Notes.findIndex.
  rewrite (findIndexFrom_first _ before after note 0 Hbefore Hnote).
  rewrite Z.add_0_l.
  destruct (Z.ltb_spec (Z.of_nat (length before)) 0) as [?|_]; [lia|].
  rewrite slice_before, slice_after, Nat2Z.id.
  by rewrite list_lookup_middle.
Qed.

Lemma updateNote_none (update : gmap string value)
    (notes : list (gmap string value)) :
  Forall (λ n, strictEquals (Notes.idOf n) (Notes.idOf update) = false)
         notes →
  Notes.updateNote update notes = notes.
Proof.
  intros Hnone. unfold Notes.updateNote, Notes.findIndex.
  by rewrite findIndexFrom_none.
Qed.

(** X15.  [updateNote] changes the first note whose [id] is strictly equal
    to that of the update, and no other note: the note keeps its place,
    takes every property of the update, keeps its own properties that the
    update does not have, and still has an [id] strictly equal to that of
    the update.  When no note has that [id], the notes are returned as
    they are. *)
Theorem updateNote_merges_first_match (update : gmap string value)
    (notes : list (gmap string value)) :
  (Forall (λ n, strictEquals (Notes.idOf n) (Notes.idOf update) = false) notes
   ∧ Notes.updateNote update notes = notes)
  ∨ ∃ before note after merged,
      notes = before ++ note :: after
      ∧ Forall (λ n, strictEquals (Notes.idOf n) (Notes.idOf update) = false)
               before
      ∧ strictEquals (Notes.idOf note) (Notes.idOf update) = true
      ∧ Notes.updateNote update notes = before ++ merged :: after
      ∧ (∀ k v, update !! k = Some v → merged !! k = Some v)
      ∧ (∀ k, update !! k = None → merged !! k = note !! k)
      ∧ strictEquals (Notes.idOf merged) (Notes.idOf update) = true.
Proof.
  destruct (first_match
              (λ n, strictEquals (Notes.idOf n) (Notes.idOf update)) notes)
    as [Hnone|(before & note & after & -> & Hbefore & Hnote)].
  - left. split; [done | by apply updateNote_none].
  - right. exists before, note, after, (Notes.spread note update).
    repeat split; try done.
    + by apply updateNote_first.
    + intros k v Hk. by apply lookup_union_Some_l.
    + intros k Hk. by apply lookup_union_r.
    + by apply idOf_spread.
Qed.

(** X16.  [updateNote] with the same update a second time changes
    nothing more. *)
Theorem updateNote_twice (update : gmap string value)
    (notes : list (gmap string value)) :
  Notes.updateNote update (Notes.updateNote update notes)
  = Notes.updateNote update notes.
Proof.
  destruct (first_match
              (λ n, strictEquals (Notes.idOf n) (Notes.idOf update)) notes)
    as [Hnone|(before & note & after & -> & Hbefore & Hnote)].
  - by rewrite (updateNote_none update notes Hnone), updateNote_none.
  - rewrite (updateNote_first update before after note Hbefore Hnote).
    rewrite (updateNote_first update before after _ Hbefore
               (idOf_spread note update Hnote)).
    unfold Notes.spread. rewrite map_union_assoc.
    by rewrite (idemp (∪) update).
Qed.

(** ** [Spacer] *)

Lemma ToBoolean_orZero (v : value) :
  Spacer.ToBoolean (Spacer.orZero v) = Spacer.ToBoolean v.
Proof. by destruct v. Qed.

Lemma orZero_truthy (v : value) :
  Spacer.ToBoolean v = true → Spacer.orZero v = v.
Proof. by destruct v. Qed.

(** X17.  In the margins of a [Spacer] the property of one side wins over
    the shorthand for two sides, and that over [all]: each margin is the
    first truthy one of the three properties that can set it, and is not
    set when none of them is truthy.  So a falsy value such as [0] for one
    side does not take away the margin that a shorthand gives that side.
    The margins have no other property. *)
Theorem spacer_margin_precedence (p : Spacer.props) :
  let m := Spacer.margins p in
  m !! "marginTop"
    = Spacer.firstTruthy [Spacer.top p; Spacer.vert p; Spacer.all p]
  ∧ m !! "marginRight"
    = Spacer.firstTruthy [Spacer.right p; Spacer.horz p; Spacer.all p]
  ∧ m !! "marginBottom"
    = Spacer.firstTruthy [Spacer.bottom p; Spacer.vert p; Spacer.all p]
  ∧ m !! "marginLeft"
    = Spacer.firstTruthy [Spacer.left p; Spacer.horz p; Spacer.all p]
  ∧ (∀ k, is_Some (m !! k) →
          k ∈ ["marginTop"; "marginRight"; "marginBottom"; "marginLeft"]).
Proof.
  destruct p as [all horz vert top right bottom left].
  unfold Spacer.margins, Spacer.spreadWhen, Spacer.firstTruthy. simpl.
  rewrite !ToBoolean_orZero.
  destruct (Spacer.ToBoolean all) eqn:Hall;
    destruct (Spacer.ToBoolean horz) eqn:Hhorz;
    destruct (Spacer.ToBoolean vert) eqn:Hvert;
    destruct (Spacer.ToBoolean top) eqn:Htop;
    destruct (Spacer.ToBoolean right) eqn:Hright;
    destruct (Spacer.ToBoolean bottom) eqn:Hbottom;
    destruct (Spacer.ToBoolean left) eqn:Hleft;
    rewrite ?(orZero_truthy all), ?(orZero_truthy horz),
      ?(orZero_truthy vert), ?(orZero_truthy top), ?(orZero_truthy right),
      ?(orZero_truthy bottom), ?(orZero_truthy left) by done;
    (repeat split; [reflexivity.. |]);
    intros k [v Hk];
    repeat (apply lookup_union_Some_raw in Hk as [Hk|[_ Hk]]);
    repeat match type of Hk with
      | <[ _ := _ ]> _ !! _ = Some _ =>
          apply lookup_insert_Some in Hk as [[<- _]|[_ Hk]]
      | {[ _ := _ ]} !! _ = Some _ =>
          apply lookup_singleton_Some in Hk as [<- _]
      | ∅ !! _ = Some _ => by rewrite lookup_empty in Hk
      end;
    set_solver.
Qed.

(** ** [getIncome] and [getSpent] *)

Section BudgetFacts.

Variable StringToNumber : string → number.
Variable sourceText : string → string.

Lemma reduce_forEach {A B : Type} (step : B → A → B) (l : list A) (b : B) :
  Budget.forEach (λ x s, step s x) l b = Budget.reduce step b l.
Proof. revert b. induction l as [|x l IH]; intros b; [done | apply IH]. Qed.

(** X18.  The [getIncome] written with [forEach] returns what the one
    written with [reduce] returns, for all transactions, whatever their
    amounts are. *)
Theorem getIncome_forEach_agrees (transactions : list Budget.transaction) :
  Budget.getIncomeForEach StringToNumber sourceText transactions
  = Budget.getIncome StringToNumber sourceText transactions.
Proof.
  unfold Budget.getIncomeForEach, Budget.getIncome.
  by rewrite <- reduce_forEach.
Qed.

Lemma reduce_integer_amounts (pick : Budget.transaction → option value)
    (transactions : list Budget.transaction) (z : Z) :
  Forall (λ t, Budget.integerOrMissing (pick t)) transactions →
  Budget.reduce
    (λ acc t,
       match pick t with
       | Some amount => plus StringToNumber sourceText acc amount
       | None => acc
       end)
    (VNum (Int z)) transactions
  = VNum (Int (z + Budget.sumOfAmounts (map pick transactions))).
Proof.
  intros Hall. revert z.
  induction Hall as [|t ts Ht Hts IH]; intros z.
  - unfold Budget.reduce. simpl. by rewrite Z.add_0_r.
  - unfold Budget.reduce. simpl fold_left.
    unfold Budget.integerOrMissing in Ht.
    destruct (pick t) as [[| | |[]| | |]|] eqn:Hpick; try done.
    + change (plus StringToNumber sourceText (VNum (Int z)) (VNum (Int z0)))
        with (VNum (Int (z + z0))).
      fold (Budget.reduce
              (λ acc t, match pick t with
                        | Some amount => plus StringToNumber sourceText acc amount
                        | None => acc
                        end) (VNum (Int (z + z0))) ts).
      rewrite IH. simpl. rewrite Hpick. do 2 f_equal. lia.
    + fold (Budget.reduce
              (λ acc t, match pick t with
                        | Some amount => plus StringToNumber sourceText acc amount
                        | None => acc
                        end) (VNum (Int z)) ts).
      rewrite IH. simpl. by rewrite Hpick.
Qed.

(** X19.  For transactions whose amounts are integers, with the
    magnitudes of the inflows and those of the outflows each adding up to
    a safe integer, [getIncome] is the sum of the amounts of the inflows
    and [getSpent] the sum of the amounts of the outflows; a transaction
    without an inflow adds nothing to the income, one without an outflow
    nothing to the spending, and without transactions both are [0]. *)
Theorem getIncome_getSpent_sum (transactions : list Budget.transaction) :
  Forall (λ t, Budget.integerOrMissing (Budget.inflow t)
               ∧ Budget.integerOrMissing (Budget.outflow t)) transactions →
  isSafeInteger (Budget.sumOfMagnitudes (map Budget.inflow transactions))
  = true →
  isSafeInteger (Budget.sumOfMagnitudes (map Budget.outflow transactions))
  = true →
  Budget.getIncome StringToNumber sourceText transactions
  = VNum (Int (Budget.sumOfAmounts (map Budget.inflow transactions)))
  ∧ Budget.getSpent StringToNumber sourceText transactions
    = VNum (Int (Budget.sumOfAmounts (map Budget.outflow transactions))).
Proof.
  intros Hall _ _. split.
  - unfold Budget.getIncome.
    rewrite (reduce_integer_amounts Budget.inflow); [done|].
    eapply Forall_impl; [exact Hall|]. by intros t [? ?].
  - unfold Budget.getSpent.
    rewrite (reduce_integer_amounts Budget.outflow); [done|].
    eapply Forall_impl; [exact Hall|]. by intros t [? ?].
Qed.

End BudgetFacts.

Lemma getIncome_getSpent_sum_witness :
  let transactions :=
    [Budget.Transaction (Some (VNum (Int 100))) None;
     Budget.Transaction None (Some (VNum (Int 30)));
     Budget.Transaction (Some (VNum (Int 5))) (Some (VNum (Int 12)))] in
  Budget.getIncome noStringToNumber noSourceText transactions
  = VNum (Int (Budget.sumOfAmounts (map Budget.inflow transactions)))
  ∧ Budget.getSpent noStringToNumber noSourceText transactions
    = VNum (Int (Budget.sumOfAmounts (map Budget.outflow transactions))).
Proof.
  apply (getIncome_getSpent_sum noStringToNumber noSourceText);
    [repeat constructor | reflexivity..].
Defined.
